(** * D3CND: genetic search for network dynamics, src/algorithm.py

    A shallow embedding of the optimiser of [src/algorithm.py]: the gene
    codec, the design matrix, the complete individual, the population
    operators (selection, crossover, mutation, generation step) and the
    driver loop.

    Numbers.  Python ints are [Z].  Every real number of the program is an
    IEEE-754 binary64 value (a Python float or a numpy float64 scalar); it
    is modelled by [spec_float] with the binary64 parameters, and +, -, *, /
    and the comparisons are the IEEE operations of [SpecFloat].

    Failure.  A Python exception is a [Raise] in the [result] monad.

    Randomness.  The process-wide generator of the [random] module is an
    explicit tape of the outcomes of its successive calls. *)

From Stdlib Require Import ZArith List Bool Lia Arith PeanoNat.
From Stdlib Require Import SpecFloat.
Import ListNotations.

(** ** binary64 *)

Module F64.

Definition prec : Z := 53.
Definition emax : Z := 1024.

Definition float : Type := spec_float.

Definition add : float -> float -> float := SFadd prec emax.
Definition sub : float -> float -> float := SFsub prec emax.
Definition mul : float -> float -> float := SFmul prec emax.
Definition div : float -> float -> float := SFdiv prec emax.
Definition ltb : float -> float -> bool := SFltb.
Definition leb : float -> float -> bool := SFleb.
Definition eqb : float -> float -> bool := SFeqb.

(** Conversion of a Python int to a float, round to nearest even. *)
Definition of_Z (z : Z) : float := binary_normalize prec emax z 0 false.

Definition pos_zero : float := S754_zero false.
Definition pos_infinity : float := S754_infinity false.

Definition is_nan (f : float) : bool :=
  match f with S754_nan => true | _ => false end.

(** A value of the binary64 format: a finite one has a canonical
    mantissa and an exponent in range. *)
Definition valid (f : float) : bool := valid_binary prec emax f.

(** Truth value of a float64 in a condition: everything but the two
    zeros is true. *)
Definition truthy (f : float) : bool :=
  match f with S754_zero _ => false | _ => true end.

End F64.

Definition float : Type := F64.float.

(** ** Exceptions *)

Inductive exn : Type := IndexError | ValueError | LinAlgError.

Inductive result (A : Type) : Type :=
| Ok (a : A)
| Raise (e : exn).

Arguments Ok {A} a.
Arguments Raise {A} e.

Definition rbind {A B : Type} (m : result A) (k : A -> result B) : result B :=
  match m with
  | Ok a => k a
  | Raise e => Raise e
  end.

Declare Scope result_scope.
Delimit Scope result_scope with result.
Notation "x <- m ;; k" := (rbind m (fun x => k))
  (at level 61, m at next level, right associativity) : result_scope.
Notation "' pat <- m ;; k" :=
  (rbind m (fun x => match x with pat => k end))
  (at level 61, pat pattern, m at next level, right associativity) : result_scope.
Open Scope result_scope.

(** [lst[i]] for a non-negative index. *)
Definition getitem {A : Type} (l : list A) (i : nat) : result A :=
  match nth_error l i with
  | Some a => Ok a
  | None => Raise IndexError
  end.

(** [for v in items: acc = body(acc, v)], stopping at the first exception. *)
Fixpoint for_each {A B : Type} (items : list A) (body : B -> A -> result B)
    (acc : B) : result B :=
  match items with
  | [] => Ok acc
  | v :: rest => acc' <- body acc v ;; for_each rest body acc'
  end.

(** [[f(v) for v in items]]. *)
Fixpoint comprehension {A B : Type} (f : A -> result B) (items : list A)
    : result (list B) :=
  match items with
  | [] => Ok []
  | v :: rest => b <- f v ;; bs <- comprehension f rest ;; Ok (b :: bs)
  end.

(** [range(n)] and [range(a, b)]. *)
Definition range (n : nat) : list nat := seq 0 n.
Definition range_from (a b : nat) : list nat := seq a (b - a).

(** ** Module constants (lines 22-34) *)

Definition NUMBER_OF_NODES : nat := 10.
Definition TIME_FRAMES : nat := 20.
Definition CHROMOSOME_SIZE : nat := 3.
Definition GENE_SIZE : nat := 12.
(** The literal [0.1]: the binary64 value nearest to one tenth. *)
Definition MUTATION_CHANCE : float := F64.div (F64.of_Z 1) (F64.of_Z 10).
Definition CHILDREN : nat := 10.
Definition TERMINATION_CONDITION : Z := 1000.
Definition POWER_RANGE : Z * Z := (0, 2)%Z.

(** [STEP = (POWER_RANGE[1] - POWER_RANGE[0]) / 2 ** GENE_SIZE]: true
    division of two ints. *)
Definition STEP : float :=
  F64.div (F64.of_Z (snd POWER_RANGE - fst POWER_RANGE))
          (F64.of_Z (2 ^ Z.of_nat GENE_SIZE)).

(** Number of bits of a chromosome, [CHROMOSOME_SIZE * GENE_SIZE]. *)
Definition CHROMOSOME_BITS : nat := CHROMOSOME_SIZE * GENE_SIZE.

(** ** Arrays *)

Definition vector : Type := list float.

(** A two-dimensional input array: its shape and its entries. *)
Record ndarray : Type := mk_ndarray {
  nrows : nat;
  ncols : nat;
  item : nat -> nat -> float
}.

(** [a[r, c]]. *)
Definition getitem2 (a : ndarray) (r c : nat) : result float :=
  if (r <? nrows a) && (c <? ncols a) then Ok (item a r c) else Raise IndexError.

(** [a[:stop, c]]: the slice clips at the number of rows, the column index
    is checked. *)
Definition column_prefix (a : ndarray) (stop c : nat) : result vector :=
  if c <? ncols a
  then Ok (map (fun t => item a t c) (range (Nat.min stop (nrows a))))
  else Raise IndexError.

(** [a[:, c]]. *)
Definition column (a : ndarray) (c : nat) : result vector :=
  column_prefix a (nrows a) c.

(** A two-dimensional array built by the program: rows and row width. *)
Record array2 : Type := mk_array2 {
  width : nat;
  rows : list vector
}.

(** [np.ones(n)]. *)
Definition np_ones (n : nat) : vector := repeat (F64.of_Z 1) n.

(** Elementwise operation on two vectors of one length (broadcasting of a
    one-element vector does not occur in this program). *)
Fixpoint elementwise (op : float -> float -> float) (u v : vector)
    : result vector :=
  match u, v with
  | [], [] => Ok []
  | a :: u', b :: v' => w <- elementwise op u' v' ;; Ok (op a b :: w)
  | _, _ => Raise ValueError
  end.

(** [np.sum(terms, axis=0)] for a non-empty list of vectors: the rows are
    added up one after the other. *)
Definition np_sum_axis0 (terms : list vector) : result vector :=
  match terms with
  | [] => Raise ValueError
  | t :: ts => for_each ts (fun acc v => elementwise F64.add acc v) t
  end.

(** [np.column_stack(columns)]: the columns must have one length. *)
Definition np_column_stack (columns : list vector) : result array2 :=
  match columns with
  | [] => Raise ValueError
  | c0 :: _ =>
    if forallb (fun c => length c =? length c0) columns
    then Ok (mk_array2 (length columns)
               (map (fun t => map (fun c => nth t c F64.pos_zero) columns)
                    (range (length c0))))
    else Raise ValueError
  end.

(** [np.concatenate(blocks)] along axis 0: the blocks must have one width. *)
Definition np_concatenate (blocks : list array2) : result array2 :=
  match blocks with
  | [] => Raise ValueError
  | b0 :: _ =>
    if forallb (fun b => width b =? width b0) blocks
    then Ok (mk_array2 (width b0) (concat (map rows blocks)))
    else Raise ValueError
  end.

(** ** Chromosomes, individuals and the gene codec (lines 60-66) *)

(** A chromosome is a list of bits; a bit is a Python int that is 0 or 1. *)
Definition chromosome_t : Type := list bool.

Record individual : Type := mk_individual {
  chromosome : chromosome_t;
  powers : list float;
  coefficients : vector;
  mse : float;
  fitness : float
}.

(** Lines 62-64: the integer of gene [i]. *)
Definition gene_binary (chrom : chromosome_t) (i : nat) : result Z :=
  for_each (range GENE_SIZE)
    (fun binary j =>
       bit <- getitem chrom (i * GENE_SIZE + j) ;;
       Ok (binary + Z.b2z bit * 2 ^ Z.of_nat (GENE_SIZE - j - 1))%Z)
    0%Z.

(** Line 65: [POWER_RANGE[0] + binary * STEP]. *)
Definition power_of_binary (binary : Z) : float :=
  F64.add (F64.of_Z (fst POWER_RANGE)) (F64.mul (F64.of_Z binary) STEP).

(** Lines 60-66. *)
Definition decode (chrom : chromosome_t) : result (list float) :=
  for_each (range CHROMOSOME_SIZE)
    (fun powers i =>
       binary <- gene_binary chrom i ;;
       Ok (powers ++ [power_of_binary binary]))
    [].

(** ** numpy and math routines whose value the source does not fix *)

Class Numerics : Type := {
  (** [a ** b] on float64. *)
  np_pow : float -> float -> float;
  (** [np.linalg.lstsq(theta, y, rcond=None)[0]]. *)
  np_lstsq : array2 -> vector -> result vector;
  (** [np.matmul(theta, coefficients.T)]. *)
  np_matmul : array2 -> vector -> result vector;
  (** [np.mean(v)]. *)
  np_mean : vector -> float;
  (** [math.log10] on its domain, the positive floats. *)
  log10_positive : float -> float
}.

(** ** The design matrix, [_get_theta] (lines 37-56) *)

Section Evaluation.

Context {numerics : Numerics}.

Definition vpow (v : vector) (p : float) : vector :=
  map (fun a => np_pow a p) v.

Definition scale (a : float) (v : vector) : vector := map (F64.mul a) v.

(** The inner loop, lines 46-50: the coupling terms of [node_index]. *)
Definition coupling_terms (x adjacency_matrix : ndarray) (powers : list float)
    (node_index : nat) (x_i : vector) : result (list vector) :=
  for_each (range NUMBER_OF_NODES)
    (fun terms j =>
       if negb (j =? node_index) then
         a <- getitem2 adjacency_matrix j node_index ;;
         if F64.truthy a then
           x_j <- column_prefix x TIME_FRAMES j ;;
           a <- getitem2 adjacency_matrix j node_index ;;
           p1 <- getitem powers 1 ;;
           p2 <- getitem powers 2 ;;
           term <- elementwise F64.mul (scale a (vpow x_i p1)) (vpow x_j p2) ;;
           Ok (terms ++ [term])
         else Ok terms
       else Ok terms)
    [].

(** The body of the outer loop, lines 40-54: the block of one node. *)
Definition theta_block (x adjacency_matrix : ndarray) (powers : list float)
    (node_index : nat) : result array2 :=
  x_i <- column_prefix x TIME_FRAMES node_index ;;
  p0 <- getitem powers 0 ;;
  let column_list := [np_ones TIME_FRAMES; vpow x_i p0] in
  terms <- coupling_terms x adjacency_matrix powers node_index x_i ;;
  column_list <-
    match terms with
    | [] => Ok column_list
    | _ => col <- np_sum_axis0 terms ;; Ok (column_list ++ [col])
    end ;;
  np_column_stack column_list.

Definition _get_theta (x adjacency_matrix : ndarray) (powers : list float)
    : result array2 :=
  theta_list <-
    for_each (range NUMBER_OF_NODES)
      (fun theta_list node_index =>
         theta <- theta_block x adjacency_matrix powers node_index ;;
         Ok (theta_list ++ [theta]))
      [] ;;
  np_concatenate theta_list.

(** ** The complete individual, [_get_complete_individual] (lines 59-78) *)

(** Line 77: [1 / mse], the division of the float64 scalar [mse] into 1. *)
Definition reciprocal (mse : float) : float := F64.div (F64.of_Z 1) mse.

(** Lines 67-71: design matrix, stacked targets, least squares, error. *)
Definition fit (x y adjacency_matrix : ndarray) (powers : list float)
    : result (vector * float) :=
  theta <- _get_theta x adjacency_matrix powers ;;
  y_columns <- comprehension (column y) (range NUMBER_OF_NODES) ;;
  let stacked_y := concat y_columns in
  coefficients <- np_lstsq theta stacked_y ;;
  y_hat <- np_matmul theta coefficients ;;
  residual <- elementwise F64.sub stacked_y y_hat ;;
  Ok (coefficients, np_mean (vpow residual (F64.of_Z 2))).

Definition _get_complete_individual (x y adjacency_matrix : ndarray)
    (chrom : chromosome_t) : result individual :=
  powers <- decode chrom ;;
  '(coefficients, mse) <- fit x y adjacency_matrix powers ;;
  Ok {| chromosome := chrom;
        powers := powers;
        coefficients := coefficients;
        mse := mse;
        fitness := reciprocal mse |}.

End Evaluation.

(** ** State and randomness *)

(** Outcome of a computation over a state [S]: a value and the new state,
    an exception, or [NoDraw] when the computation asks for more than its
    state provides (the tape of draws, or the fuel of a loop, is used up). *)
Inductive outcome (S A : Type) : Type :=
| Done (a : A) (s : S)
| Raised (e : exn)
| NoDraw.

Arguments Done {S A} a s.
Arguments Raised {S A} e.
Arguments NoDraw {S A}.

Definition St (S A : Type) : Type := S -> outcome S A.

Definition ret {S A : Type} (a : A) : St S A := fun s => Done a s.

Definition bind {S A B : Type} (m : St S A) (k : A -> St S B) : St S B :=
  fun s =>
    match m s with
    | Done a s' => k a s'
    | Raised e => Raised e
    | NoDraw => NoDraw
    end.

Definition lift {S A : Type} (r : result A) : St S A :=
  fun s => match r with Ok a => Done a s | Raise e => Raised e end.

Declare Scope st_scope.
Delimit Scope st_scope with st.
Notation "x <- m ;; k" := (bind m (fun x => k))
  (at level 61, m at next level, right associativity) : st_scope.

(** The [random] module: the outcomes of the successive calls of
    [random.random()] and of [random.randint(a, b)], in call order. *)
Record tape : Type := mk_tape {
  uniforms : list float;
  integers : list Z
}.

Definition Rand (A : Type) : Type := St tape A.

(** [random.random()]: the next float, which lies in [0, 1). *)
Definition random_random : Rand float :=
  fun t =>
    match uniforms t with
    | r :: rest =>
      if F64.leb (F64.of_Z 0) r && F64.ltb r (F64.of_Z 1)
      then Done r (mk_tape rest (integers t))
      else NoDraw
    | [] => NoDraw
    end.

(** [random.randint(a, b)]: the next int, which lies in [a, b]. *)
Definition random_randint (a b : Z) : Rand Z :=
  fun t =>
    match integers t with
    | z :: rest =>
      if ((a <=? z) && (z <=? b))%Z
      then Done z (mk_tape (uniforms t) rest)
      else NoDraw
    | [] => NoDraw
    end.

(** [for v in items: acc = body(acc, v)] over a state. *)
Fixpoint st_for_each {S A B : Type} (items : list A) (body : B -> A -> St S B)
    (acc : B) : St S B :=
  match items with
  | [] => ret acc
  | v :: rest => (acc' <- body acc v ;; st_for_each rest body acc')%st
  end.

(** ** Sorting *)

(** [sorted(l, key=key)]: the stable sort of [l] by ascending key, keys
    compared with [<].  When no key is NaN, [<] orders the keys and the
    stable sort is the list below.  With a NaN among the keys Python's
    merge sort still returns a definite permutation of [l], but not
    always this one (for the keys -5, -7, NaN, -9 Python puts the NaN
    last and the list below does not): what is proved about the order of
    a sorted list is stated for keys without NaN. *)
Fixpoint insert_by {A : Type} (key : A -> float) (a : A) (l : list A) : list A :=
  match l with
  | [] => [a]
  | h :: t => if F64.ltb (key h) (key a) then h :: insert_by key a t
              else a :: h :: t
  end.

Definition sorted {A : Type} (key : A -> float) (l : list A) : list A :=
  fold_right (insert_by key) [] l.

(** [lambda individual: -1 * individual['fitness']]. *)
Definition descending_fitness (ind : individual) : float :=
  F64.mul (F64.of_Z (-1)) (fitness ind).

(** [sum(l)] of floats: from the int 0, left to right. *)
Definition py_sum (l : list float) : float :=
  fold_left F64.add l (F64.of_Z 0).

(** ** The population (lines 81-159) *)

Record population : Type := mk_population {
  size : nat;
  x : ndarray;
  y : ndarray;
  adjacency_matrix : ndarray;
  individuals : list individual
}.

Definition set_individuals (self : population) (l : list individual)
    : population :=
  mk_population (size self) (x self) (y self) (adjacency_matrix self) l.

Section Population.

Context {numerics : Numerics}.

(** Lines 89-98.  An incomplete individual is its chromosome. *)
Definition _get_complete_individuals (self : population)
    (chromosomes : list chromosome_t) : result (list individual) :=
  comprehension
    (_get_complete_individual (x self) (y self) (adjacency_matrix self))
    chromosomes.

(** Line 105: [[random.randint(0, 1) for _ in range(n)]]. *)
Definition random_chromosome : Rand chromosome_t :=
  st_for_each (range CHROMOSOME_BITS)
    (fun bits _ => z <- random_randint 0 1 ;; ret (bits ++ [(z =? 1)%Z]))%st
    [].

(** Lines 100-108. *)
Definition _get_initial_individuals (size : nat) : Rand (list chromosome_t) :=
  st_for_each (range size)
    (fun chromosomes _ =>
       c <- random_chromosome ;; ret (chromosomes ++ [c]))%st
    [].

(** Lines 82-87. *)
Definition Population_init (size : nat) (x y adjacency_matrix : ndarray)
    : Rand population :=
  let self := mk_population size x y adjacency_matrix [] in
  (chromosomes <- _get_initial_individuals size ;;
   complete <- lift (_get_complete_individuals self chromosomes) ;;
   ret (set_individuals self complete))%st.

(** Lines 110-114. *)
Definition _crossover (chromosome1 chromosome2 : chromosome_t)
    : Rand chromosome_t :=
  (crossover_point <- random_randint 0 (Z.of_nat CHROMOSOME_BITS - 1) ;;
   let p := Z.to_nat crossover_point in
   ret (firstn p chromosome1 ++ skipn p chromosome2))%st.

(** Lines 116-124. *)
Definition _mutation (chrom : chromosome_t) : Rand chromosome_t :=
  st_for_each (range CHROMOSOME_BITS)
    (fun mutated_chromosome i =>
       r <- random_random ;;
       if F64.ltb r MUTATION_CHANCE then
         bit <- lift (getitem chrom i) ;;
         ret (mutated_chromosome ++ [negb bit])
       else
         bit <- lift (getitem chrom i) ;;
         ret (mutated_chromosome ++ [bit]))%st
    [].

(** Lines 131-135: the loop over [range(1, len(sorted_individuals))]; the
    first branch is the [break]. *)
Fixpoint select_loop (sorted_individuals : list individual)
    (total_fitness random_value : float) (indices : list nat)
    (selected_index : nat) (sum_fitness : float) : result nat :=
  match indices with
  | [] => Ok selected_index
  | i :: rest =>
    if F64.ltb random_value (F64.div sum_fitness total_fitness)
    then Ok selected_index
    else
      ind <- getitem sorted_individuals i ;;
      select_loop sorted_individuals total_fitness random_value rest
        i (F64.add sum_fitness (fitness ind))
  end.

(** Lines 126-136. *)
Definition _select_random_individual (sorted_individuals : list individual)
    (total_fitness : float) : Rand nat :=
  (random_value <- random_random ;;
   first <- lift (getitem sorted_individuals 0) ;;
   lift (select_loop sorted_individuals total_fitness random_value
           (range_from 1 (length sorted_individuals)) 0 (fitness first)))%st.

(** Lines 148-149: the chromosomes handed to the crossover for a pair of
    selected indices. *)
Definition parent_chromosomes (self : population)
    (individual1_index individual2_index : nat)
    : result (chromosome_t * chromosome_t) :=
  ind1 <- getitem (individuals self) individual1_index ;;
  ind2 <- getitem (individuals self) individual2_index ;;
  Ok (chromosome ind1, chromosome ind2).

(** Lines 144-153: the [while] loop; [fuel] bounds its iterations. *)
Fixpoint breed (fuel : nat) (self : population)
    (sorted_individuals : list individual) (total_fitness : float)
    (children : list chromosome_t) : Rand (list chromosome_t) :=
  if length children <? CHILDREN then
    match fuel with
    | O => fun _ => NoDraw
    | S fuel' =>
      (individual1_index <-
         _select_random_individual sorted_individuals total_fitness ;;
       individual2_index <-
         _select_random_individual sorted_individuals total_fitness ;;
       if negb (individual1_index =? individual2_index) then
         parents <- lift (parent_chromosomes self
                            individual1_index individual2_index) ;;
         crossed <- _crossover (fst parents) (snd parents) ;;
         offspring_chromosome <- _mutation crossed ;;
         breed fuel' self sorted_individuals total_fitness
           (children ++ [offspring_chromosome])
       else
         breed fuel' self sorted_individuals total_fitness children)%st
    end
  else ret children.

(** Lines 156-157: merge, sort, truncate. *)
Definition survivors (self : population) (children : list individual)
    : list individual :=
  let new_individuals :=
    sorted descending_fitness (individuals self ++ children) in
  firstn (size self) new_individuals.

(** Lines 138-159.  Every pass of the [while] loop that goes on takes two
    draws from [random.random()], so the length of that tape bounds the
    number of passes. *)
Definition run_single_iteration (self : population)
    : Rand (individual * population) :=
  let sorted_individuals := sorted descending_fitness (individuals self) in
  let total_fitness := py_sum (map fitness (individuals self)) in
  fun t =>
    (children <- breed (length (uniforms t)) self
                   sorted_individuals total_fitness [] ;;
     children <- lift (_get_complete_individuals self children) ;;
     let self' := set_individuals self (survivors self children) in
     fittest <- lift (getitem (individuals self') 0) ;;
     ret (fittest, self'))%st t.

End Population.

(** ** The driver, [run] (lines 178-211) *)

(** The variables of [run] that its loop updates. *)
Record driver : Type := mk_driver {
  fittest_individual : option individual;
  counter : Z;
  best_fitness : float;
  best_index : Z;
  errors : list float
}.

(** Lines 186-190; [best_fitness] starts as the int 0. *)
Definition driver_start : driver :=
  mk_driver None 0 (F64.of_Z 0) 0 [].

Section Driver.

Context {numerics : Numerics}.

(** [math.log10]: a zero or negative argument is a domain error. *)
Definition math_log10 (v : float) : result float :=
  if F64.leb v (F64.of_Z 0) then Raise ValueError else Ok (log10_positive v).

(** The loop of [run] calls one method of the population object,
    [run_single_iteration]; [W] is whatever that call reads and updates. *)
Variable W : Type.
Variable generation : St W individual.

(** Lines 193-200: one pass of the loop body (the [print] leaves the
    variables alone). *)
Definition driver_pass (d : driver) : St W driver :=
  (let counter := (counter d + 1)%Z in
   fittest <- generation ;;
   error <- lift (math_log10 (mse fittest)) ;;
   let errors := errors d ++ [error] in
   if F64.ltb (best_fitness d) (fitness fittest)
   then ret (mk_driver (Some fittest) counter (fitness fittest) counter errors)
   else ret (mk_driver (Some fittest) counter (best_fitness d) (best_index d)
               errors))%st.

(** Lines 192-200: the [while] loop; [fuel] bounds its passes. *)
Fixpoint driver_loop (fuel : nat) (d : driver) : St W driver :=
  if (counter d - best_index d <? TERMINATION_CONDITION)%Z then
    match fuel with
    | O => fun _ => NoDraw
    | S fuel' => (d' <- driver_pass d ;; driver_loop fuel' d')%st
    end
  else ret d.

End Driver.

Arguments driver_pass {numerics W} generation d.
Arguments driver_loop {numerics W} generation fuel d.



(** ** Concrete instances, to run the model *)

Module Harness.

(** Row times vector, summed left to right. *)
Definition dot (row v : vector) : float :=
  fold_left F64.add (map (fun p => F64.mul (fst p) (snd p)) (combine row v))
    (F64.of_Z 0).

(** Simple routines in the place of numpy's: the base for the power,
    the zero vector for the least-squares solution, dot products for the
    matrix product, the left-to-right mean. *)
Definition plain : Numerics := {|
  np_pow := fun a _ => a;
  np_lstsq := fun theta _ => Ok (repeat (F64.of_Z 0) (width theta));
  np_matmul := fun theta v =>
    if forallb (fun row => length row =? length v) (rows theta)
    then Ok (map (fun row => dot row v) (rows theta))
    else Raise ValueError;
  np_mean := fun v =>
    F64.div (fold_left F64.add v (F64.of_Z 0))
            (F64.of_Z (Z.of_nat (length v)));
  log10_positive := fun v => v
|}.

(** A [rows] by [cols] array with one value everywhere. *)
Definition constant (rows cols : nat) (v : float) : ndarray :=
  mk_ndarray rows cols (fun _ _ => v).

Definition x_ones : ndarray := constant TIME_FRAMES NUMBER_OF_NODES (F64.of_Z 1).
Definition y_ones : ndarray := constant TIME_FRAMES NUMBER_OF_NODES (F64.of_Z 1).
Definition a_full : ndarray :=
  constant NUMBER_OF_NODES NUMBER_OF_NODES (F64.of_Z 1).

(** An adjacency matrix with the single edge from node 0 to node 1. *)
Definition a_one_edge : ndarray :=
  mk_ndarray NUMBER_OF_NODES NUMBER_OF_NODES
    (fun j i => if (j =? 0) && (i =? 1) then F64.of_Z 1 else F64.of_Z 0).

End Harness.

Module Run.

Import Harness.

Definition half : float := F64.div (F64.of_Z 1) (F64.of_Z 2).
Definition quarter : float := F64.div (F64.of_Z 1) (F64.of_Z 4).
Definition three_quarters : float := F64.div (F64.of_Z 3) (F64.of_Z 4).

(** The draws of one offspring of two individuals of equal fitness: the
    selection of index 0, the selection of index 1, a crossover in the
    middle and no mutation. *)
Definition offspring_uniforms : list float :=
  [quarter; three_quarters] ++ repeat half CHROMOSOME_BITS.

(** Draws for the initialization of two individuals, all zeros and all
    ones, followed by a generation step. *)
Definition draws : tape :=
  mk_tape (concat (repeat offspring_uniforms CHILDREN))
          (repeat 0%Z CHROMOSOME_BITS ++ repeat 1%Z CHROMOSOME_BITS
           ++ repeat 18%Z CHILDREN).

Definition nine_tenths : float := F64.div (F64.of_Z 9) (F64.of_Z 10).

(** Two complete individuals: error 1 and fitness 1 for the all-zero
    chromosome, error 1/4 and fitness 4 for the all-ones chromosome. *)
Definition weak : individual :=
  mk_individual (repeat false CHROMOSOME_BITS)
    (repeat (F64.of_Z 0) CHROMOSOME_SIZE) (repeat (F64.of_Z 0) 3)
    (F64.of_Z 1) (reciprocal (F64.of_Z 1)).

Definition strong : individual :=
  mk_individual (repeat true CHROMOSOME_BITS)
    (repeat (F64.sub (F64.of_Z 2) STEP) CHROMOSOME_SIZE)
    (repeat (F64.of_Z 0) 3)
    quarter (reciprocal quarter).

(** A complete individual of error 0, and so of infinite fitness. *)
Definition perfect : individual :=
  mk_individual (repeat true CHROMOSOME_BITS)
    (repeat (F64.sub (F64.of_Z 2) STEP) CHROMOSOME_SIZE)
    (repeat (F64.of_Z 0) 3)
    F64.pos_zero (reciprocal F64.pos_zero).

(** A population as the initialization leaves it: its individuals in
    the order of their creation, here the less fit one first. *)
Definition fresh : population :=
  mk_population 2 x_ones y_ones a_full [weak; strong].

(** The population and the tape after the initialization. *)
Definition started : population * tape :=
  Eval vm_compute in
  match @Population_init plain 2 x_ones y_ones a_full draws with
  | Done self t => (self, t)
  | _ => (mk_population 0 x_ones y_ones a_full [], draws)
  end.

(** The fittest individual, the population and the tape after one
    generation step. *)
Definition step_outcome : outcome tape (individual * population) :=
  Eval vm_compute in
  @run_single_iteration plain (fst started) (snd started).

Definition stepped : individual * population * tape :=
  Eval vm_compute in
  match step_outcome with
  | Done result t => (fst result, snd result, t)
  | _ => (mk_individual [] [] [] F64.pos_zero F64.pos_zero,
          fst started, snd started)
  end.


End Run.

(** * Vocabulary of the properties *)

(** The bits of a block, most significant first, as an unsigned integer. *)
Fixpoint unsigned_msb_first (bits : list bool) : Z :=
  match bits with
  | [] => 0
  | b :: rest => Z.b2z b * 2 ^ Z.of_nat (length rest) + unsigned_msb_first rest
  end.

(** Block [i] of a chromosome. *)
Definition gene_bits (chrom : chromosome_t) (i : nat) : list bool :=
  firstn GENE_SIZE (skipn (i * GENE_SIZE) chrom).

Definition min_power : float := F64.of_Z (fst POWER_RANGE).
Definition max_power : float := F64.of_Z (snd POWER_RANGE).

(** The integer of a gene decodes into the closed power range. *)
Definition power_in_range (binary : Z) : bool :=
  F64.leb min_power (power_of_binary binary)
  && F64.leb (power_of_binary binary) max_power.



(** The design block of a node in closed form. *)
Section DesignBlock.

Context {numerics : Numerics}.
Variables (x adjacency_matrix : ndarray) (p0 p1 p2 : float).

(** The nodes [j != i] with [A[j, i] != 0], in increasing order. *)
Definition in_neighbours (i : nat) : list nat :=
  filter (fun j => negb (j =? i)
                   && negb (F64.eqb (item adjacency_matrix j i) (F64.of_Z 0)))
         (range NUMBER_OF_NODES).

(** [X[t, i] ^ powers[0]]. *)
Definition self_term (i t : nat) : float := np_pow (item x t i) p0.

(** [A[j, i] * X[t, i] ^ powers[1] * X[t, j] ^ powers[2]]. *)
Definition coupling_term (i j t : nat) : float :=
  F64.mul (F64.mul (item adjacency_matrix j i) (np_pow (item x t i) p1))
          (np_pow (item x t j) p2).

(** The sum of the coupling terms over the nodes [js], taken in order. *)
Definition coupling_sum (i : nat) (js : list nat) (t : nat) : float :=
  match js with
  | [] => F64.pos_zero
  | j :: rest => fold_left F64.add (map (fun j' => coupling_term i j' t) rest)
                   (coupling_term i j t)
  end.

(** Row [t] of the block of node [i]: the intercept, the self term and,
    when node [i] has an in-neighbour, the coupling term. *)
Definition design_row (i t : nat) : vector :=
  [F64.of_Z 1; self_term i t]
  ++ match in_neighbours i with
     | [] => []
     | _ :: _ => [coupling_sum i (in_neighbours i) t]
     end.

Definition design_width (i : nat) : nat :=
  match in_neighbours i with [] => 2 | _ :: _ => 3 end.

Definition design_block (i : nat) : array2 :=
  mk_array2 (design_width i) (map (design_row i) (range TIME_FRAMES)).

End DesignBlock.

(** The fitness of individuals 0 to [k] of a list, added up in order. *)
Definition cumulative_fitness (l : list individual) (k : nat) : float :=
  match l with
  | [] => F64.pos_zero
  | first :: rest =>
    fold_left F64.add (map fitness (firstn k rest)) (fitness first)
  end.

(** The cumulative fitness fraction of individuals 0 to [k] exceeds the
    draw [r]. *)
Definition trips (l : list individual) (total r : float) (k : nat) : bool :=
  F64.ltb r (F64.div (cumulative_fitness l k) total).

(** [r] is a float of the interval [0, 1). *)
Definition unit_interval (r : float) : bool :=
  F64.leb (F64.of_Z 0) r && F64.ltb r (F64.of_Z 1).

(** A fitness value that can be ranked: a value of the binary64 format
    other than NaN. *)
Definition comparable (f : float) : bool :=
  F64.valid f && negb (F64.is_nan f).

(** The place of a float other than NaN in the order of the floats: its
    class (negative infinity, negative, zero, positive, positive infinity),
    then exponent and mantissa, both negated for a negative float. *)
Definition order_key (f : float) : Z * Z * Z :=
  match f with
  | S754_infinity true => (-2, 0, 0)%Z
  | S754_finite true m e => (-1, - e, - Zpos m)%Z
  | S754_zero _ => (0, 0, 0)%Z
  | S754_nan => (0, 0, 0)%Z
  | S754_finite false m e => (1, e, Zpos m)%Z
  | S754_infinity false => (2, 0, 0)%Z
  end.

Definition key_lt (a b : Z * Z * Z) : Prop :=
  (fst (fst a) < fst (fst b)
   \/ (fst (fst a) = fst (fst b)
       /\ (snd (fst a) < snd (fst b)
           \/ (snd (fst a) = snd (fst b) /\ snd a < snd b))))%Z.

(** [n] generation steps in a row: the fittest individuals they return,
    in order, and the final population. *)
Fixpoint generations {numerics : Numerics} (n : nat) (self : population)
    : Rand (list individual * population) :=
  match n with
  | O => ret ([], self)
  | S n' =>
    (step <- run_single_iteration self ;;
     rest <- generations n' (snd step) ;;
     ret (fst step :: fst rest, snd rest))%st
  end.

(** Every individual of the population has a fitness that can be ranked. *)
Definition ranked (self : population) : Prop :=
  forall ind, In ind (individuals self) -> comparable (fitness ind) = true.

(** On the data of the population, every chromosome that evaluates has a
    fitness that can be ranked. *)
Definition ranked_landscape {numerics : Numerics} (self : population) : Prop :=
  forall chrom ind,
    _get_complete_individual (x self) (y self) (adjacency_matrix self) chrom
    = Ok ind ->
    comparable (fitness ind) = true.






(** The chromosomes of the individuals that the selection picked: the
    indices are positions in the population sorted by descending fitness. *)
Definition selected_chromosomes (self : population)
    (individual1_index individual2_index : nat)
    : result (chromosome_t * chromosome_t) :=
  let sorted_individuals := sorted descending_fitness (individuals self) in
  ind1 <- getitem sorted_individuals individual1_index ;;
  ind2 <- getitem sorted_individuals individual2_index ;;
  Ok (chromosome ind1, chromosome ind2).

(** What the mutation makes of a bit for a draw: the other bit when the
    draw is below MUTATION_CHANCE, the same bit otherwise. *)
Definition mutated_bit (r : float) (bit : bool) : bool :=
  if F64.ltb r MUTATION_CHANCE then negb bit else bit.

(** A list of draws of the interval [0, 1). *)
Definition unit_draws (us : list float) : Prop :=
  Forall (fun r => unit_interval r = true) us.

(** The float [f] is exactly the number [num * 2 ^ exp2]. *)
Definition exactly (f : float) (num exp2 : Z) : bool :=
  match f with
  | S754_zero _ => (num =? 0)%Z
  | S754_finite s m e =>
    (e <=? exp2)%Z
    && ((if s then - Zpos m else Zpos m) =? num * 2 ^ (exp2 - e))%Z
  | _ => false
  end.

(** The chromosomes of a population all have CHROMOSOME_BITS bits. *)
Definition full_length (self : population) : Prop :=
  forall ind, In ind (individuals self) ->
              length (chromosome ind) = CHROMOSOME_BITS.

(** Every individual of a population is what [_get_complete_individual]
    makes of its chromosome on the data of the population. *)
Definition all_complete {numerics : Numerics} (self : population) : Prop :=
  forall ind, In ind (individuals self) ->
    _get_complete_individual (x self) (y self) (adjacency_matrix self)
      (chromosome ind) = Ok ind.

(** * The order of the floats *)

Lemma ltb_order_key (a b : float) :
  F64.is_nan a = false -> F64.is_nan b = false ->
  (F64.ltb a b = true <-> key_lt (order_key a) (order_key b)).
Proof.
  intros Ha Hb. unfold F64.ltb, SFltb, key_lt.
  destruct a as [sa|sa| |sa ma ea]; try discriminate;
    destruct b as [sb|sb| |sb mb eb]; try discriminate;
    try destruct sa; try destruct sb; cbn [SFcompare order_key fst snd];
    try (split; [discriminate | lia]);
    try (split; [lia | reflexivity]).
  - change (Pos.compare_cont Eq ma mb) with (Pos.compare ma mb).
    destruct (Z.compare_spec ea eb) as [He|He|He];
      destruct (Pos.compare_spec ma mb) as [Hm|Hm|Hm]; cbn [CompOpp];
      split; intros H; try discriminate; try reflexivity; try lia.
  - change (Pos.compare_cont Eq ma mb) with (Pos.compare ma mb).
    destruct (Z.compare_spec ea eb) as [He|He|He];
      destruct (Pos.compare_spec ma mb) as [Hm|Hm|Hm];
      split; intros H; try discriminate; try reflexivity; try lia.
Qed.

Lemma leb_order_key (a b : float) :
  F64.is_nan a = false -> F64.is_nan b = false ->
  (F64.leb a b = true <-> ~ key_lt (order_key b) (order_key a)).
Proof.
  intros Ha Hb. unfold F64.leb, SFleb, key_lt.
  destruct a as [sa|sa| |sa ma ea]; try discriminate;
    destruct b as [sb|sb| |sb mb eb]; try discriminate;
    try destruct sa; try destruct sb; cbn [SFcompare order_key fst snd];
    try (split; [discriminate | lia]);
    try (split; [lia | reflexivity]).
  - change (Pos.compare_cont Eq ma mb) with (Pos.compare ma mb).
    destruct (Z.compare_spec ea eb) as [He|He|He];
      destruct (Pos.compare_spec ma mb) as [Hm|Hm|Hm]; cbn [CompOpp];
      split; intros H; try discriminate; try reflexivity; try lia.
  - change (Pos.compare_cont Eq ma mb) with (Pos.compare ma mb).
    destruct (Z.compare_spec ea eb) as [He|He|He];
      destruct (Pos.compare_spec ma mb) as [Hm|Hm|Hm];
      split; intros H; try discriminate; try reflexivity; try lia.
Qed.

Lemma ltb_nan_l (b : float) : F64.ltb S754_nan b = false.
Proof. reflexivity. Qed.

Lemma ltb_nan_r (a : float) : F64.ltb a S754_nan = false.
Proof. destruct a as [s|s| |s m e]; reflexivity. Qed.

Lemma ltb_not_nan (a b : float) :
  F64.ltb a b = true -> F64.is_nan a = false /\ F64.is_nan b = false.
Proof.
  destruct a as [s|s| |s m e]; destruct b as [s'|s'| |s' m' e'];
    cbn; intros H; try discriminate; split; reflexivity.
Qed.

(** [<] is a strict order on all floats. *)
Lemma ltb_irrefl (a : float) : F64.ltb a a = false.
Proof.
  destruct (F64.is_nan a) eqn:Ha.
  - destruct a; try discriminate. reflexivity.
  - destruct (F64.ltb a a) eqn:H; [|reflexivity].
    apply (ltb_order_key a a Ha Ha) in H. unfold key_lt in H. lia.
Qed.

Lemma ltb_trans (a b c : float) :
  F64.ltb a b = true -> F64.ltb b c = true -> F64.ltb a c = true.
Proof.
  intros Hab Hbc.
  destruct (ltb_not_nan _ _ Hab) as [Ha Hb].
  destruct (ltb_not_nan _ _ Hbc) as [_ Hc].
  apply (ltb_order_key a b Ha Hb) in Hab.
  apply (ltb_order_key b c Hb Hc) in Hbc.
  apply (ltb_order_key a c Ha Hc). unfold key_lt in *. lia.
Qed.

(** Away from NaN the order is total. *)
Lemma ltb_false_leb (a b : float) :
  F64.is_nan a = false -> F64.is_nan b = false ->
  F64.ltb a b = false -> F64.leb b a = true.
Proof.
  intros Ha Hb H. apply (leb_order_key b a Hb Ha).
  intros Hlt. apply (ltb_order_key a b Ha Hb) in Hlt. congruence.
Qed.

Lemma leb_trans (a b c : float) :
  F64.is_nan a = false -> F64.is_nan b = false -> F64.is_nan c = false ->
  F64.leb a b = true -> F64.leb b c = true -> F64.leb a c = true.
Proof.
  intros Ha Hb Hc Hab Hbc.
  apply (leb_order_key a b Ha Hb) in Hab.
  apply (leb_order_key b c Hb Hc) in Hbc.
  apply (leb_order_key a c Ha Hc). unfold key_lt in *. lia.
Qed.

Lemma leb_refl (a : float) : F64.is_nan a = false -> F64.leb a a = true.
Proof.
  intros Ha. apply (leb_order_key a a Ha Ha). unfold key_lt. lia.
Qed.

Lemma ltb_leb_trans (a b c : float) :
  F64.is_nan c = false ->
  F64.ltb a b = true -> F64.leb b c = true -> F64.ltb a c = true.
Proof.
  intros Hc Hab Hbc. destruct (ltb_not_nan _ _ Hab) as [Ha Hb].
  apply (ltb_order_key a b Ha Hb) in Hab.
  apply (leb_order_key b c Hb Hc) in Hbc.
  apply (ltb_order_key a c Ha Hc). unfold key_lt in *. lia.
Qed.

Lemma ltb_negative_trans (a b c : float) :
  F64.is_nan a = false -> F64.is_nan b = false -> F64.is_nan c = false ->
  F64.ltb b a = false -> F64.ltb c b = false -> F64.ltb c a = false.
Proof.
  intros Ha Hb Hc Hba Hcb.
  destruct (F64.ltb c a) eqn:Hca; [|reflexivity].
  apply (ltb_order_key c a Hc Ha) in Hca.
  assert (H1 : ~ key_lt (order_key b) (order_key a))
    by (intros H; apply (ltb_order_key b a Hb Ha) in H; congruence).
  assert (H2 : ~ key_lt (order_key c) (order_key b))
    by (intros H; apply (ltb_order_key c b Hc Hb) in H; congruence).
  unfold key_lt in *. lia.
Qed.

(** Negation reverses the order. *)
Lemma ltb_opp (a b : float) :
  F64.ltb (SFopp a) (SFopp b) = F64.ltb b a.
Proof.
  unfold F64.ltb, SFltb.
  destruct a as [sa|sa| |sa ma ea]; destruct b as [sb|sb| |sb mb eb];
    try destruct sa; try destruct sb; cbn [SFopp negb SFcompare];
    try reflexivity;
    change (Pos.compare_cont Eq ma mb) with (Pos.compare ma mb);
    change (Pos.compare_cont Eq mb ma) with (Pos.compare mb ma);
    rewrite (Z.compare_antisym ea eb), (Pos.compare_antisym ma mb);
    destruct (ea ?= eb)%Z; destruct (ma ?= mb)%positive; reflexivity.
Qed.

(** Multiplication by -1 is negation: the mantissa and the exponent of a
    float of the format come back unchanged from the rounding. *)
Lemma digits2_shift52 (m : positive) :
  Z.pos (digits2_pos (4503599627370496 * m)) = (Z.pos (digits2_pos m) + 52)%Z.
Proof.
  cbn [Pos.mul digits2_pos]. repeat rewrite Pos2Z.inj_succ. lia.
Qed.

Lemma shr_shift52 (m : positive) :
  iter_pos shr_1 52 (shr_record_of_loc (Z.pos (4503599627370496 * m)) loc_Exact)
  = Build_shr_record (Z.pos m) false false.
Proof. reflexivity. Qed.

Lemma mul_minus_one (f : float) :
  F64.valid f = true -> F64.mul (F64.of_Z (-1)) f = SFopp f.
Proof.
  destruct f as [s|s| |s m e]; try (destruct s; reflexivity); try reflexivity.
  unfold F64.valid, valid_binary, bounded, canonical_mantissa.
  intros Hv. apply andb_true_iff in Hv. destruct Hv as [Hc He].
  apply Z.eqb_eq in Hc. apply Z.leb_le in He.
  change (F64.of_Z (-1)) with (S754_finite true 4503599627370496 (-52)).
  unfold F64.mul, SFmul. cbn [xorb].
  unfold binary_round_aux.
  unfold shr_fexp at 1. unfold Zdigits2 at 1.
  rewrite digits2_shift52.
  replace (Z.pos (digits2_pos m) + 52 + (-52 + e))%Z
    with (Z.pos (digits2_pos m) + e)%Z by lia.
  rewrite Hc.
  replace (e - (-52 + e))%Z with 52%Z by lia.
  unfold shr at 1. rewrite shr_shift52.
  cbn [shr_m loc_of_shr_record round_nearest_even].
  replace (-52 + e + 52)%Z with e by lia.
  unfold shr_fexp, Zdigits2. rewrite Hc, Z.sub_diag.
  cbn [shr shr_record_of_loc shr_m].
  apply Z.leb_le in He. rewrite He. destruct s; reflexivity.
Qed.

Lemma comparable_inv (f : float) :
  comparable f = true -> F64.valid f = true /\ F64.is_nan f = false.
Proof.
  unfold comparable. intros H. apply andb_true_iff in H.
  destruct H as [Hv Hn]. now apply negb_true_iff in Hn.
Qed.

Lemma is_nan_opp (f : float) : F64.is_nan (SFopp f) = F64.is_nan f.
Proof. destruct f; reflexivity. Qed.

(** The sort key [-1 * fitness] puts the larger fitness first. *)
Lemma descending_key_ltb (a b : individual) :
  comparable (fitness a) = true -> comparable (fitness b) = true ->
  F64.ltb (descending_fitness a) (descending_fitness b)
  = F64.ltb (fitness b) (fitness a).
Proof.
  intros Ha Hb. unfold descending_fitness.
  rewrite !mul_minus_one by now apply comparable_inv.
  apply ltb_opp.
Qed.

(** * Running the state monad backwards *)

Lemma bind_done {S A B : Type} (m : St S A) (k : A -> St S B) (s s' : S) (b : B) :
  bind m k s = Done b s' ->
  exists a s1, m s = Done a s1 /\ k a s1 = Done b s'.
Proof.
  unfold bind. destruct (m s) as [a s1|e|]; try discriminate.
  intros H. now exists a, s1.
Qed.

Lemma lift_done {S A : Type} (r : result A) (s s' : S) (a : A) :
  lift r s = Done a s' -> r = Ok a /\ s' = s.
Proof.
  unfold lift. destruct r; [|discriminate].
  intros H. inversion H. now subst.
Qed.

Lemma ret_done {S A : Type} (a b : A) (s s' : S) :
  ret a s = Done b s' -> b = a /\ s' = s.
Proof. unfold ret. intros H. inversion H. now subst. Qed.

Lemma comprehension_length {A B : Type} (f : A -> result B) (l : list A) :
  forall l', comprehension f l = Ok l' -> length l' = length l.
Proof.
  induction l as [|a l IH]; intros l' H; cbn in H.
  - now inversion H.
  - destruct (f a) as [b|e]; [|discriminate]. cbn [rbind] in H.
    destruct (comprehension f l) as [bs|e]; [|discriminate].
    cbn [rbind] in H. inversion H; subst. cbn. f_equal. now apply IH.
Qed.

Lemma comprehension_in {A B : Type} (f : A -> result B) (l : list A) :
  forall l' b, comprehension f l = Ok l' -> In b l' ->
               exists a, In a l /\ f a = Ok b.
Proof.
  induction l as [|a l IH]; intros l' b H Hin; cbn in H.
  - inversion H; subst. destruct Hin.
  - destruct (f a) as [b0|e] eqn:Hfa; [|discriminate]. cbn [rbind] in H.
    destruct (comprehension f l) as [bs|e]; [|discriminate].
    cbn [rbind] in H. inversion H; subst. destruct Hin as [<-|Hin].
    + exists a. split; [now left | exact Hfa].
    + destruct (IH bs b eq_refl Hin) as (a' & Ha' & Hf).
      exists a'. split; [now right | exact Hf].
Qed.

(** * Sorting *)

Lemma length_insert_by {A : Type} (key : A -> float) (a : A) (l : list A) :
  length (insert_by key a l) = S (length l).
Proof.
  induction l as [|h t IH]; [reflexivity|]. cbn.
  destruct (F64.ltb (key h) (key a)); cbn; now rewrite ?IH.
Qed.

Lemma sorted_cons {A : Type} (key : A -> float) (a : A) (l : list A) :
  sorted key (a :: l) = insert_by key a (sorted key l).
Proof. reflexivity. Qed.

Lemma length_sorted {A : Type} (key : A -> float) (l : list A) :
  length (sorted key l) = length l.
Proof.
  induction l as [|a l IH]; [reflexivity|].
  now rewrite sorted_cons, length_insert_by, IH.
Qed.

Lemma in_insert_by {A : Type} (key : A -> float) (a e : A) (l : list A) :
  In e (insert_by key a l) <-> e = a \/ In e l.
Proof.
  induction l as [|h t IH]; cbn.
  - intuition congruence.
  - destruct (F64.ltb (key h) (key a)); cbn; rewrite ?IH; intuition congruence.
Qed.

Lemma in_sorted {A : Type} (key : A -> float) (e : A) (l : list A) :
  In e (sorted key l) <-> In e l.
Proof.
  induction l as [|a l IH]; [cbn; tauto|].
  rewrite sorted_cons, in_insert_by, IH. cbn. intuition congruence.
Qed.

(** When no key is NaN, the sorted list starts with an element of least
    key. *)
Lemma sorted_head {A : Type} (key : A -> float) (l : list A) :
  (forall e, In e l -> F64.is_nan (key e) = false) ->
  l <> [] ->
  exists h rest,
    sorted key l = h :: rest
    /\ In h l
    /\ forall e, In e l -> F64.ltb (key e) (key h) = false.
Proof.
  induction l as [|a l IH]; intros Hnan Hne; [contradiction|].
  rewrite sorted_cons.
  destruct l as [|b l'].
  - exists a, []. cbn. split; [reflexivity|]. split; [now left|].
    intros e [<-|[]]. apply ltb_irrefl.
  - destruct IH as (h & rest & Hs & Hin & Hmin);
      [intros e He; apply Hnan; now right | discriminate |].
    rewrite Hs. cbn [insert_by].
    destruct (F64.ltb (key h) (key a)) eqn:Hha.
    + exists h, (insert_by key a rest). split; [reflexivity|].
      split; [now right|]. intros e [<-|He]; [|now apply Hmin].
      destruct (F64.ltb (key a) (key h)) eqn:Hah; [|reflexivity].
      pose proof (ltb_trans _ _ _ Hha Hah) as Hc.
      now rewrite ltb_irrefl in Hc.
    + exists a, (h :: rest). split; [reflexivity|]. split; [now left|].
      intros e [<-|He]; [apply ltb_irrefl|].
      apply (ltb_negative_trans (key a) (key h) (key e)).
      * apply Hnan. now left.
      * apply Hnan. now right.
      * apply Hnan. now right.
      * exact Hha.
      * now apply Hmin.
Qed.

Lemma in_firstn {A : Type} (n : nat) (l : list A) (a : A) :
  In a (firstn n l) -> In a l.
Proof.
  revert l. induction n as [|n IH]; intros [|h t] H; cbn in H; try contradiction.
  destruct H as [<-|H]; [now left | right; now apply IH].
Qed.

(** * The gene codec *)

Lemma skipn_nth_error {A : Type} (l : list A) (k : nat) (a : A) :
  nth_error l k = Some a -> skipn k l = a :: skipn (S k) l.
Proof.
  revert k; induction l as [|h t IH]; intros [|k] H; simpl in *; try discriminate.
  - now inversion H.
  - now apply IH.
Qed.

Lemma unsigned_msb_first_range (bits : list bool) :
  (0 <= unsigned_msb_first bits <= 2 ^ Z.of_nat (length bits) - 1)%Z.
Proof.
  induction bits as [|b rest IH]; simpl length; simpl unsigned_msb_first.
  - simpl. lia.
  - rewrite Nat2Z.inj_succ, Z.pow_succ_r by lia.
    assert (0 < 2 ^ Z.of_nat (length rest))%Z by (apply Z.pow_pos_nonneg; lia).
    destruct b; simpl Z.b2z; lia.
Qed.

Lemma gene_loop_spec (chrom : chromosome_t) (i n : nat) :
  forall (j0 : nat) (acc : Z),
    j0 + n = GENE_SIZE ->
    i * GENE_SIZE + GENE_SIZE <= length chrom ->
    for_each (seq j0 n)
      (fun binary j =>
         bit <- getitem chrom (i * GENE_SIZE + j) ;;
         Ok (binary + Z.b2z bit * 2 ^ Z.of_nat (GENE_SIZE - j - 1))%Z)
      acc
    = Ok (acc + unsigned_msb_first
                  (firstn n (skipn (i * GENE_SIZE + j0) chrom)))%Z.
Proof.
  induction n as [|n IH]; intros j0 acc Hj Hlen.
  - simpl. f_equal. lia.
  - cbn [seq for_each].
    destruct (nth_error chrom (i * GENE_SIZE + j0)) as [bit|] eqn:Hbit.
    2:{ apply nth_error_None in Hbit. lia. }
    unfold getitem at 1. rewrite Hbit. cbn [rbind].
    rewrite IH by lia.
    rewrite (skipn_nth_error _ _ _ Hbit). cbn [firstn unsigned_msb_first].
    replace (i * GENE_SIZE + S j0) with (S (i * GENE_SIZE + j0)) by lia.
    rewrite length_firstn, length_skipn.
    replace (Nat.min n (length chrom - S (i * GENE_SIZE + j0))) with n by lia.
    replace (GENE_SIZE - j0 - 1) with n by lia.
    f_equal. lia.
Qed.

Lemma gene_binary_spec (chrom : chromosome_t) (i : nat) :
  i * GENE_SIZE + GENE_SIZE <= length chrom ->
  gene_binary chrom i = Ok (unsigned_msb_first (gene_bits chrom i)).
Proof.
  intros Hlen. unfold gene_binary, range, gene_bits.
  rewrite (gene_loop_spec chrom i GENE_SIZE 0 0%Z) by (simpl; lia).
  now rewrite Nat.add_0_r.
Qed.

Lemma gene_bits_length (chrom : chromosome_t) (i : nat) :
  i * GENE_SIZE + GENE_SIZE <= length chrom ->
  length (gene_bits chrom i) = GENE_SIZE.
Proof.
  intros H. unfold gene_bits. rewrite length_firstn, length_skipn. lia.
Qed.

Lemma decode_spec (chrom : chromosome_t) :
  length chrom = CHROMOSOME_BITS ->
  decode chrom =
  Ok (map (fun i => power_of_binary (unsigned_msb_first (gene_bits chrom i)))
          (range CHROMOSOME_SIZE)).
Proof.
  intros Hlen. unfold decode, range. cbn [CHROMOSOME_SIZE seq for_each map].
  assert (HL : length chrom = 3 * GENE_SIZE) by exact Hlen.
  rewrite !gene_binary_spec by lia. reflexivity.
Qed.

(** The 2^GENE_SIZE integers of a gene are few enough to be tried one by
    one. *)
Lemma power_in_range_all (binary : Z) :
  (0 <= binary <= 2 ^ Z.of_nat GENE_SIZE - 1)%Z ->
  power_in_range binary = true.
Proof.
  intros Hb.
  assert (Hall : forallb (fun n => power_in_range (Z.of_nat n))
                   (seq 0 (2 ^ GENE_SIZE)) = true) by (vm_compute; reflexivity).
  rewrite forallb_forall in Hall.
  specialize (Hall (Z.to_nat binary)).
  rewrite Z2Nat.id in Hall by lia. apply Hall.
  apply in_seq. change (2 ^ Z.of_nat GENE_SIZE)%Z with 4096%Z in Hb.
  change (2 ^ GENE_SIZE) with 4096. lia.
Qed.

(** C6.  A chromosome of CHROMOSOME_SIZE * GENE_SIZE bits decodes without
    error, as a function of the chromosome alone.  Gene [i] is read most
    significant bit first as an unsigned integer [b] between 0 and
    2^GENE_SIZE - 1, and its power is [min_power + b * STEP] with
    [STEP = (max_power - min_power) / 2^GENE_SIZE].  Every decoded power
    lies in the closed range from [min_power] to [max_power]; the all-zero
    chromosome decodes every power to [min_power] and the all-ones
    chromosome to [max_power - STEP]. *)
Theorem decode_quantisation (chrom : chromosome_t) :
  length chrom = CHROMOSOME_BITS ->
  exists decoded : list float,
    decode chrom = Ok decoded
    /\ decoded =
       map (fun i =>
              F64.add min_power
                (F64.mul (F64.of_Z (unsigned_msb_first (gene_bits chrom i)))
                   (F64.div (F64.of_Z (snd POWER_RANGE - fst POWER_RANGE))
                      (F64.of_Z (2 ^ Z.of_nat GENE_SIZE)))))
           (range CHROMOSOME_SIZE)
    /\ (forall i, i < CHROMOSOME_SIZE ->
          (0 <= unsigned_msb_first (gene_bits chrom i)
             <= 2 ^ Z.of_nat GENE_SIZE - 1)%Z)
    /\ (forall p, In p decoded ->
          F64.leb min_power p = true /\ F64.leb p max_power = true)
    /\ (chrom = repeat false CHROMOSOME_BITS ->
          decoded = repeat min_power CHROMOSOME_SIZE)
    /\ (chrom = repeat true CHROMOSOME_BITS ->
          decoded = repeat (F64.sub max_power STEP) CHROMOSOME_SIZE).
Proof.
  intros Hlen.
  assert (Hblock : forall i, i < CHROMOSOME_SIZE ->
            i * GENE_SIZE + GENE_SIZE <= length chrom).
  { intros i Hi. rewrite Hlen. unfold CHROMOSOME_BITS.
    unfold CHROMOSOME_SIZE in *. nia. }
  assert (Hrange : forall i, i < CHROMOSOME_SIZE ->
            (0 <= unsigned_msb_first (gene_bits chrom i)
               <= 2 ^ Z.of_nat GENE_SIZE - 1)%Z).
  { intros i Hi. pose proof (unsigned_msb_first_range (gene_bits chrom i)) as H.
    rewrite (gene_bits_length chrom i (Hblock i Hi)) in H. exact H. }
  eexists. split; [apply (decode_spec chrom Hlen)|].
  split; [reflexivity|]. split; [exact Hrange|]. split; [|split].
  - intros p Hp. apply in_map_iff in Hp. destruct Hp as (i & <- & Hi).
    apply in_seq in Hi.
    pose proof (power_in_range_all _ (Hrange i ltac:(lia))) as Hin.
    unfold power_in_range in Hin. apply andb_true_iff in Hin. exact Hin.
  - intros ->. vm_compute. reflexivity.
  - intros ->. vm_compute. reflexivity.
Qed.

Lemma decode_quantisation_witness :
  length (repeat true CHROMOSOME_BITS) = CHROMOSOME_BITS
  /\ exists decoded : list float,
       decode (repeat true CHROMOSOME_BITS) = Ok decoded
       /\ decoded = repeat (F64.sub max_power STEP) CHROMOSOME_SIZE.
Proof.
  split; [reflexivity|].
  destruct (decode_quantisation (repeat true CHROMOSOME_BITS) eq_refl)
    as (decoded & Hd & _ & _ & _ & _ & Hones).
  exists decoded. split; [exact Hd | exact (Hones eq_refl)].
Defined.

(** * The fitness of a complete individual *)


Lemma complete_individual_inv {numerics : Numerics} (x y a : ndarray)
    (chrom : chromosome_t) (ind : individual) :
  _get_complete_individual x y a chrom = Ok ind ->
  exists decoded,
    decode chrom = Ok decoded
    /\ fit x y a decoded = Ok (coefficients ind, mse ind)
    /\ chromosome ind = chrom
    /\ powers ind = decoded
    /\ fitness ind = reciprocal (mse ind).
Proof.
  unfold _get_complete_individual. intros H.
  destruct (decode chrom) as [decoded|e]; [|discriminate]. cbn [rbind] in H.
  destruct (fit x y a decoded) as [[cs m]|e] eqn:Hf; [|discriminate].
  cbn [rbind] in H. inversion H; subst; clear H. cbn.
  exists decoded. repeat split; try reflexivity. exact Hf.
Qed.




(** * Crossover *)

Lemma crossover_inv (c1 c2 offspring : chromosome_t) (t t' : tape) :
  _crossover c1 c2 t = Done offspring t' ->
  exists p : nat,
    p < CHROMOSOME_BITS
    /\ integers t = Z.of_nat p :: integers t'
    /\ uniforms t' = uniforms t
    /\ offspring = firstn p c1 ++ skipn p c2.
Proof.
  unfold _crossover, bind, random_randint, ret.
  destruct (integers t) as [|z rest] eqn:Hint; [discriminate|].
  destruct ((0 <=? z)%Z && (z <=? Z.of_nat CHROMOSOME_BITS - 1)%Z) eqn:Hz;
    [|discriminate].
  intros H. inversion H; subst; clear H. simpl.
  apply andb_true_iff in Hz. destruct Hz as [H0 H1].
  apply Z.leb_le in H0. apply Z.leb_le in H1.
  exists (Z.to_nat z). rewrite Z2Nat.id by lia.
  repeat split; try reflexivity. lia.
Qed.

Lemma crossover_draw (c1 c2 : chromosome_t) (p : nat) (us : list float)
    (rest : list Z) :
  p < CHROMOSOME_BITS ->
  _crossover c1 c2 (mk_tape us (Z.of_nat p :: rest))
  = Done (firstn p c1 ++ skipn p c2) (mk_tape us rest).
Proof.
  intros Hp. unfold _crossover, bind, random_randint, ret.
  cbn [integers uniforms].
  assert (Hz : ((0 <=? Z.of_nat p)%Z
                && (Z.of_nat p <=? Z.of_nat CHROMOSOME_BITS - 1)%Z) = true).
  { apply andb_true_iff. split; apply Z.leb_le; lia. }
  rewrite Hz. now rewrite Nat2Z.id.
Qed.

Lemma crossover_bits (c1 c2 : chromosome_t) (p : nat) :
  p <= length c1 ->
  length c1 = length c2 ->
  length (firstn p c1 ++ skipn p c2) = length c1
  /\ (forall i, i < p ->
        nth_error (firstn p c1 ++ skipn p c2) i = nth_error c1 i)
  /\ (forall i, p <= i ->
        nth_error (firstn p c1 ++ skipn p c2) i = nth_error c2 i).
Proof.
  intros Hp Hlen.
  assert (Hf : length (firstn p c1) = p) by (rewrite length_firstn; lia).
  repeat split.
  - rewrite length_app, Hf, length_skipn. lia.
  - intros i Hi. rewrite nth_error_app1 by lia. rewrite nth_error_firstn.
    destruct (i <? p) eqn:E; [reflexivity|]. apply Nat.ltb_ge in E. lia.
  - intros i Hi. rewrite nth_error_app2 by lia. rewrite Hf.
    rewrite nth_error_skipn. f_equal. lia.
Qed.

(** C9.  For two parents of CHROMOSOME_SIZE * GENE_SIZE = L bits, the
    crossover never raises; the point it draws is one of 0, ..., L-1, and
    each of these can be drawn; the offspring has exactly L bits, equal to
    those of parent 1 strictly before the point and to those of parent 2
    from the point on. *)
Theorem crossover_single_point (c1 c2 : chromosome_t) :
  length c1 = CHROMOSOME_BITS ->
  length c2 = CHROMOSOME_BITS ->
  (forall t : tape,
      match _crossover c1 c2 t with
      | Done offspring t' =>
        exists p : nat,
          p < CHROMOSOME_BITS
          /\ integers t = Z.of_nat p :: integers t'
          /\ length offspring = CHROMOSOME_BITS
          /\ (forall i, i < p -> nth_error offspring i = nth_error c1 i)
          /\ (forall i, p <= i < CHROMOSOME_BITS ->
                nth_error offspring i = nth_error c2 i)
      | Raised _ => False
      | NoDraw => True
      end)
  /\ (forall (p : nat) (us : list float) (rest : list Z),
        p < CHROMOSOME_BITS ->
        exists offspring,
          _crossover c1 c2 (mk_tape us (Z.of_nat p :: rest))
          = Done offspring (mk_tape us rest)).
Proof.
  intros H1 H2. split.
  - intros t. destruct (_crossover c1 c2 t) as [offspring t'| e |] eqn:Hc.
    + destruct (crossover_inv _ _ _ _ _ Hc) as (p & Hp & Hi & _ & ->).
      destruct (crossover_bits c1 c2 p) as (Hl & Hb & Ha); try lia.
      exists p. repeat split; auto.
      * lia.
      * intros i [Hi1 _]. now apply Ha.
    + unfold _crossover, bind, random_randint, ret in Hc.
      destruct (integers t); [discriminate|].
      destruct (_ && _); discriminate.
    + exact I.
  - intros p us rest Hp. eexists. now apply crossover_draw.
Qed.

Lemma crossover_single_point_witness :
  length (repeat false CHROMOSOME_BITS) = CHROMOSOME_BITS
  /\ length (repeat true CHROMOSOME_BITS) = CHROMOSOME_BITS
  /\ exists offspring,
       _crossover (repeat false CHROMOSOME_BITS) (repeat true CHROMOSOME_BITS)
         (mk_tape [] [7%Z])
       = Done offspring (mk_tape [] []).
Proof.
  split; [reflexivity|]. split; [reflexivity|].
  exact (proj2 (crossover_single_point (repeat false CHROMOSOME_BITS)
                  (repeat true CHROMOSOME_BITS) eq_refl eq_refl)
           7 [] [] ltac:(unfold CHROMOSOME_BITS; simpl; lia)).
Defined.

(** C10.  The crossover point is never L, so the last bit of the offspring
    is the last bit of parent 2; the point 0 gives a copy of parent 2; and
    when the parents differ in their last bit the offspring is not a copy
    of parent 1: it differs from it at an index where it carries the bit of
    parent 2. *)
Theorem crossover_last_bit_from_parent2 (c1 c2 : chromosome_t) :
  length c1 = CHROMOSOME_BITS ->
  length c2 = CHROMOSOME_BITS ->
  (forall (t t' : tape) (offspring : chromosome_t),
      _crossover c1 c2 t = Done offspring t' ->
      nth_error offspring (CHROMOSOME_BITS - 1)
      = nth_error c2 (CHROMOSOME_BITS - 1)
      /\ (nth_error c1 (CHROMOSOME_BITS - 1)
          <> nth_error c2 (CHROMOSOME_BITS - 1) ->
          offspring <> c1
          /\ exists i, i <= CHROMOSOME_BITS - 1
                       /\ nth_error offspring i <> nth_error c1 i
                       /\ nth_error offspring i = nth_error c2 i))
  /\ (forall (us : list float) (rest : list Z),
        _crossover c1 c2 (mk_tape us (0%Z :: rest)) = Done c2 (mk_tape us rest)).
Proof.
  intros H1 H2. split.
  - intros t t' offspring Hc.
    destruct (crossover_inv _ _ _ _ _ Hc) as (p & Hp & _ & _ & ->).
    destruct (crossover_bits c1 c2 p) as (_ & _ & Ha); try lia.
    assert (Hlast : nth_error (firstn p c1 ++ skipn p c2) (CHROMOSOME_BITS - 1)
                    = nth_error c2 (CHROMOSOME_BITS - 1)) by (apply Ha; lia).
    split; [exact Hlast|]. intros Hdiff.
    assert (Hne : nth_error (firstn p c1 ++ skipn p c2) (CHROMOSOME_BITS - 1)
                  <> nth_error c1 (CHROMOSOME_BITS - 1)) by congruence.
    split.
    + intros Heq. apply Hne. now rewrite Heq.
    + exists (CHROMOSOME_BITS - 1). repeat split; auto.
  - intros us rest.
    exact (crossover_draw c1 c2 0 us rest ltac:(unfold CHROMOSOME_BITS; simpl; lia)).
Qed.

Lemma crossover_last_bit_from_parent2_witness :
  length (repeat false CHROMOSOME_BITS) = CHROMOSOME_BITS
  /\ length (repeat true CHROMOSOME_BITS) = CHROMOSOME_BITS
  /\ _crossover (repeat false CHROMOSOME_BITS) (repeat true CHROMOSOME_BITS)
       (mk_tape [] [0%Z])
     = Done (repeat true CHROMOSOME_BITS) (mk_tape [] []).
Proof.
  split; [reflexivity|]. split; [reflexivity|].
  exact (proj2 (crossover_last_bit_from_parent2 (repeat false CHROMOSOME_BITS)
                  (repeat true CHROMOSOME_BITS) eq_refl eq_refl) [] []).
Defined.

(** * The design matrix *)

Lemma truthy_nonzero (a : float) :
  F64.truthy a = negb (F64.eqb a (F64.of_Z 0)).
Proof. destruct a as [s|s| |s m e]; try destruct s; reflexivity. Qed.

Lemma column_prefix_ok (a : ndarray) (stop c : nat) :
  stop <= nrows a -> c < ncols a ->
  column_prefix a stop c = Ok (map (fun t => item a t c) (range stop)).
Proof.
  intros Hr Hc. unfold column_prefix.
  apply Nat.ltb_lt in Hc. rewrite Hc. now rewrite Nat.min_l.
Qed.

Lemma getitem2_ok (a : ndarray) (r c : nat) :
  r < nrows a -> c < ncols a -> getitem2 a r c = Ok (item a r c).
Proof.
  intros Hr Hc. unfold getitem2.
  apply Nat.ltb_lt in Hr. apply Nat.ltb_lt in Hc. now rewrite Hr, Hc.
Qed.

Lemma elementwise_map {A : Type} (op : float -> float -> float)
    (f g : A -> float) (l : list A) :
  elementwise op (map f l) (map g l) = Ok (map (fun t => op (f t) (g t)) l).
Proof.
  induction l as [|a l IH]; [reflexivity|]. simpl. now rewrite IH.
Qed.

Lemma np_ones_map (n : nat) :
  np_ones n = map (fun _ => F64.of_Z 1) (range n).
Proof.
  unfold np_ones, range. generalize 0.
  induction n as [|n IH]; intros k; [reflexivity|]. simpl. now rewrite <- IH.
Qed.

Lemma nth_map_seq {A : Type} (g : nat -> A) (d : A) (n t : nat) :
  t < n -> nth t (map g (seq 0 n)) d = g t.
Proof.
  intros Ht. rewrite (nth_indep _ d (g 0)) by now rewrite length_map, length_seq.
  rewrite (map_nth g (seq 0 n) 0 t). now rewrite seq_nth.
Qed.

Lemma np_column_stack_map (gs : list (nat -> float)) (n : nat) :
  gs <> [] ->
  np_column_stack (map (fun g => map g (range n)) gs)
  = Ok (mk_array2 (length gs) (map (fun t => map (fun g => g t) gs) (range n))).
Proof.
  intros Hne. destruct gs as [|g0 gs']; [contradiction|].
  unfold np_column_stack. cbn [map].
  set (cols := map g0 (range n) :: map (fun g => map g (range n)) gs').
  assert (Hall : forallb (fun c => length c =? length (map g0 (range n))) cols = true).
  { apply forallb_forall. intros c Hc.
    assert (Hc' : In c (map (fun g => map g (range n)) (g0 :: gs'))) by exact Hc.
    apply in_map_iff in Hc'. destruct Hc' as (g & <- & _).
    rewrite !length_map. apply Nat.eqb_refl. }
  rewrite Hall. f_equal. f_equal.
  - unfold cols. simpl. now rewrite length_map.
  - rewrite length_map. unfold range. rewrite length_seq.
    apply map_ext_in. intros t Ht. apply in_seq in Ht.
    unfold cols, range. cbn [map]. rewrite map_map. f_equal.
    + apply nth_map_seq. lia.
    + apply map_ext. intros g. apply nth_map_seq. lia.
Qed.

Section ThetaProofs.

Context {numerics : Numerics}.
Variables (x adjacency_matrix : ndarray) (p0 p1 p2 : float).

Hypothesis x_rows : TIME_FRAMES <= nrows x.
Hypothesis x_cols : NUMBER_OF_NODES <= ncols x.
Hypothesis a_rows : NUMBER_OF_NODES <= nrows adjacency_matrix.
Hypothesis a_cols : NUMBER_OF_NODES <= ncols adjacency_matrix.

Let x_column (i : nat) : vector := map (fun t => item x t i) (range TIME_FRAMES).

Let is_neighbour (i j : nat) : bool :=
  negb (j =? i) && negb (F64.eqb (item adjacency_matrix j i) (F64.of_Z 0)).

Lemma coupling_loop_spec (i : nat) (js : list nat) :
  i < NUMBER_OF_NODES ->
  (forall j, In j js -> j < NUMBER_OF_NODES) ->
  forall terms : list vector,
    for_each js
      (fun terms j =>
         if negb (j =? i) then
           a <- getitem2 adjacency_matrix j i ;;
           if F64.truthy a then
             x_j <- column_prefix x TIME_FRAMES j ;;
             a <- getitem2 adjacency_matrix j i ;;
             q1 <- getitem [p0; p1; p2] 1 ;;
             q2 <- getitem [p0; p1; p2] 2 ;;
             term <- elementwise F64.mul (scale a (vpow (x_column i) q1))
                       (vpow x_j q2) ;;
             Ok (terms ++ [term])
           else Ok terms
         else Ok terms)
      terms
    = Ok (terms
          ++ map (fun j => map (coupling_term x adjacency_matrix p1 p2 i j)
                             (range TIME_FRAMES))
                 (filter (is_neighbour i) js)).
Proof.
  intros Hi. induction js as [|j js IH]; intros Hjs terms.
  - simpl. now rewrite app_nil_r.
  - assert (Hj : j < NUMBER_OF_NODES) by (apply Hjs; now left).
    assert (Hrest : forall j', In j' js -> j' < NUMBER_OF_NODES)
      by (intros j' H'; apply Hjs; now right).
    cbn [for_each filter]. unfold is_neighbour at 1.
    destruct (negb (j =? i)) eqn:Hji; cbn [andb].
    + rewrite getitem2_ok by lia. cbn [rbind].
      rewrite truthy_nonzero.
      destruct (negb (F64.eqb (item adjacency_matrix j i) (F64.of_Z 0))).
      * rewrite column_prefix_ok by lia. cbn [rbind].
        unfold getitem. cbn [nth_error rbind].
        unfold scale, vpow, x_column. rewrite !map_map.
        rewrite elementwise_map. cbn [rbind].
        rewrite IH by assumption. rewrite <- app_assoc. reflexivity.
      * cbn [rbind]. now apply IH.
    + cbn [rbind]. now apply IH.
Qed.

Lemma sum_axis0_loop (f : nat -> nat -> float) (js : list nat) :
  forall g : nat -> float,
    for_each (map (fun j => map (f j) (range TIME_FRAMES)) js)
      (fun acc v => elementwise F64.add acc v)
      (map g (range TIME_FRAMES))
    = Ok (map (fun t => fold_left F64.add (map (fun j => f j t) js) (g t))
              (range TIME_FRAMES)).
Proof.
  induction js as [|j js IH]; intros g; [reflexivity|].
  cbn [map for_each]. rewrite elementwise_map. cbn [rbind].
  now rewrite (IH (fun t => F64.add (g t) (f j t))).
Qed.

Lemma theta_block_spec (i : nat) :
  i < NUMBER_OF_NODES ->
  theta_block x adjacency_matrix [p0; p1; p2] i
  = Ok (design_block x adjacency_matrix p0 p1 p2 i).
Proof.
  intros Hi. unfold theta_block.
  rewrite column_prefix_ok by lia. cbn [rbind].
  unfold getitem at 1. cbn [nth_error rbind].
  unfold coupling_terms.
  fold (x_column i).
  rewrite (coupling_loop_spec i (range NUMBER_OF_NODES) Hi)
    by (intros j Hj; apply in_seq in Hj; lia).
  cbn [rbind app].
  unfold design_block, design_width, design_row.
  change (filter (is_neighbour i) (range NUMBER_OF_NODES))
    with (in_neighbours adjacency_matrix i).
  unfold vpow, x_column. rewrite map_map, np_ones_map.
  destruct (in_neighbours adjacency_matrix i) as [|j0 js] eqn:Hn.
  - cbn [map rbind].
    etransitivity;
      [exact (np_column_stack_map
                [fun _ => F64.of_Z 1; fun t => np_pow (item x t i) p0]
                TIME_FRAMES ltac:(discriminate))
      | reflexivity].
  - cbn [map np_sum_axis0].
    rewrite sum_axis0_loop. cbn [rbind app].
    etransitivity;
      [exact (np_column_stack_map
                [fun _ => F64.of_Z 1; fun t => np_pow (item x t i) p0;
                 fun t => fold_left F64.add
                            (map (fun j => coupling_term x adjacency_matrix
                                             p1 p2 i j t) js)
                            (coupling_term x adjacency_matrix p1 p2 i j0 t)]
                TIME_FRAMES ltac:(discriminate))
      | reflexivity].
Qed.

Lemma theta_list_spec (js : list nat) :
  (forall j, In j js -> j < NUMBER_OF_NODES) ->
  forall theta_list : list array2,
    for_each js
      (fun theta_list node_index =>
         theta <- theta_block x adjacency_matrix [p0; p1; p2] node_index ;;
         Ok (theta_list ++ [theta]))
      theta_list
    = Ok (theta_list ++ map (design_block x adjacency_matrix p0 p1 p2) js).
Proof.
  induction js as [|j js IH]; intros Hjs theta_list.
  - simpl. now rewrite app_nil_r.
  - cbn [for_each map]. rewrite theta_block_spec by (apply Hjs; now left).
    cbn [rbind]. rewrite IH by (intros j' H'; apply Hjs; now right).
    now rewrite <- app_assoc.
Qed.

(** The design matrix is the concatenation of the blocks of the nodes,
    node 0 first. *)
Lemma get_theta_concatenates :
  _get_theta x adjacency_matrix [p0; p1; p2]
  = np_concatenate
      (map (design_block x adjacency_matrix p0 p1 p2) (range NUMBER_OF_NODES)).
Proof.
  unfold _get_theta.
  rewrite (theta_list_spec (range NUMBER_OF_NODES))
    by (intros j Hj; apply in_seq in Hj; lia).
  reflexivity.
Qed.

End ThetaProofs.

Lemma nth_error_map_range {A : Type} (f : nat -> A) (n t : nat) :
  t < n -> nth_error (map f (range n)) t = Some (f t).
Proof.
  intros Ht. rewrite nth_error_map. unfold range.
  rewrite (nth_error_nth' (seq 0 n) 0) by (rewrite length_seq; exact Ht).
  now rewrite seq_nth by exact Ht.
Qed.

(** Row [i * n + t] of a stack of blocks of [n] rows each is row [t] of
    block [i]. *)
Lemma nth_error_concat_uniform {A : Type} (n : nat) (ls : list (list A)) :
  (forall l, In l ls -> length l = n) ->
  forall i t, t < n ->
    nth_error (concat ls) (i * n + t)
    = match nth_error ls i with
      | Some l => nth_error l t
      | None => None
      end.
Proof.
  induction ls as [|l ls IH]; intros Hlen i t Ht.
  - cbn [concat]. now destruct (i * n + t), i.
  - assert (Hl : length l = n) by (apply Hlen; now left).
    cbn [concat]. destruct i as [|i].
    + cbn [Nat.mul Nat.add nth_error]. apply nth_error_app1. lia.
    + cbn [nth_error]. rewrite nth_error_app2 by lia.
      replace (S i * n + t - length l) with (i * n + t) by (cbn; lia).
      apply IH; [|exact Ht]. intros l' Hl'. apply Hlen. now right.
Qed.

Lemma in_neighbours_nonempty (a : ndarray) (i : nat) :
  in_neighbours a i <> []
  <-> exists j, j < NUMBER_OF_NODES /\ j <> i
                /\ F64.eqb (item a j i) (F64.of_Z 0) = false.
Proof.
  unfold in_neighbours. split.
  - intros Hne.
    destruct (filter _ (range NUMBER_OF_NODES)) as [|j js] eqn:Hf;
      [contradiction|].
    assert (Hin : In j (j :: js)) by now left.
    rewrite <- Hf in Hin. apply filter_In in Hin. destruct Hin as [Hr Hc].
    apply in_seq in Hr. apply andb_true_iff in Hc. destruct Hc as [Hji Hz].
    exists j. repeat split.
    + lia.
    + apply negb_true_iff, Nat.eqb_neq in Hji. exact Hji.
    + now apply negb_true_iff in Hz.
  - intros (j & Hj & Hji & Hz) Hnil.
    assert (Hin : In j (filter
              (fun j => negb (j =? i)
                        && negb (F64.eqb (item a j i) (F64.of_Z 0)))
              (range NUMBER_OF_NODES))).
    { apply filter_In. split.
      - apply in_seq. lia.
      - apply andb_true_iff. split.
        + apply negb_true_iff, Nat.eqb_neq. exact Hji.
        + now rewrite Hz. }
    rewrite Hnil in Hin. exact Hin.
Qed.

Lemma design_row_length {numerics : Numerics} (x a : ndarray)
    (p0 p1 p2 : float) (i t : nat) :
  length (design_row x a p0 p1 p2 i t) = design_width a i.
Proof.
  unfold design_row, design_width.
  destruct (in_neighbours a i); reflexivity.
Qed.

(** C5.  For a trajectory matrix with at least TIME_FRAMES rows (and a
    column per node) and an adjacency matrix with a row and a column per
    node, the block of node [i] has TIME_FRAMES rows; in each, column 0 is
    1 and column 1 is [X[t,i] ^ powers[0]]; a third column is present
    exactly when some node [j != i] has [A[j,i] != 0], and is then the sum
    over these [j] of [A[j,i] * X[t,i] ^ powers[1] * X[t,j] ^ powers[2]].
    The design matrix is the stack of these blocks, node 0 first, whenever
    they stack.  When every node has such an in-neighbour they do: the
    design matrix has NUMBER_OF_NODES * TIME_FRAMES rows of exactly 3
    columns, and its row [i * TIME_FRAMES + t] is row [t] of the block of
    node [i], that is 1, [X[t,i] ^ powers[0]] and the coupling sum of node
    [i] at time [t]. *)
Theorem design_matrix_blocks {numerics : Numerics} (x a : ndarray)
    (p0 p1 p2 : float) :
  TIME_FRAMES <= nrows x ->
  NUMBER_OF_NODES <= ncols x ->
  NUMBER_OF_NODES <= nrows a ->
  NUMBER_OF_NODES <= ncols a ->
  (forall i, i < NUMBER_OF_NODES ->
     exists block,
       theta_block x a [p0; p1; p2] i = Ok block
       /\ length (rows block) = TIME_FRAMES
       /\ forall t, t < TIME_FRAMES ->
            exists row,
              nth_error (rows block) t = Some row
              /\ nth_error row 0 = Some (F64.of_Z 1)
              /\ nth_error row 1 = Some (np_pow (item x t i) p0)
              /\ (length row = 3
                  <-> exists j, j < NUMBER_OF_NODES /\ j <> i
                        /\ F64.eqb (item a j i) (F64.of_Z 0) = false)
              /\ (length row = 2 \/ length row = 3)
              /\ (length row = 3 ->
                  nth_error row 2
                  = Some (coupling_sum x a p1 p2 i (in_neighbours a i) t)))
  /\ (exists blocks,
        Forall2 (fun i block => theta_block x a [p0; p1; p2] i = Ok block)
          (range NUMBER_OF_NODES) blocks
        /\ _get_theta x a [p0; p1; p2] = np_concatenate blocks)
  /\ ((forall i, i < NUMBER_OF_NODES ->
         exists j, j < NUMBER_OF_NODES /\ j <> i
                   /\ F64.eqb (item a j i) (F64.of_Z 0) = false) ->
      exists theta,
        _get_theta x a [p0; p1; p2] = Ok theta
        /\ width theta = 3
        /\ length (rows theta) = NUMBER_OF_NODES * TIME_FRAMES
        /\ Forall (fun row => length row = 3) (rows theta)
        /\ forall i t, i < NUMBER_OF_NODES -> t < TIME_FRAMES ->
             (exists block,
                theta_block x a [p0; p1; p2] i = Ok block
                /\ nth_error (rows theta) (i * TIME_FRAMES + t)
                   = nth_error (rows block) t)
             /\ nth_error (rows theta) (i * TIME_FRAMES + t)
                = Some [F64.of_Z 1; np_pow (item x t i) p0;
                        coupling_sum x a p1 p2 i (in_neighbours a i) t]).
Proof.
  intros Hxr Hxc Har Hac. split; [|split].
  - intros i Hi. exists (design_block x a p0 p1 p2 i).
    split; [now apply theta_block_spec|].
    split; [unfold design_block, range; cbn [rows];
            now rewrite length_map, length_seq|].
    intros t Ht. exists (design_row x a p0 p1 p2 i t).
    split.
    { unfold design_block. cbn [rows].
      rewrite nth_error_map. unfold range.
      rewrite (nth_error_nth' _ 0) by (rewrite length_seq; exact Ht).
      rewrite seq_nth by exact Ht. reflexivity. }
    split; [reflexivity|]. split; [reflexivity|].
    pose proof (in_neighbours_nonempty a i) as Hiff.
    rewrite design_row_length. unfold design_width.
    unfold design_row.
    destruct (in_neighbours a i) as [|j0 js] eqn:Hn.
    + split; [|split].
      * split; [discriminate|]. intros Hex. apply Hiff in Hex. congruence.
      * now left.
      * discriminate.
    + split; [|split].
      * split; [|reflexivity]. intros _. apply Hiff. discriminate.
      * now right.
      * reflexivity.
  - exists (map (design_block x a p0 p1 p2) (range NUMBER_OF_NODES)).
    split; [|now apply get_theta_concatenates].
    assert (Hall : forall js, (forall j, In j js -> j < NUMBER_OF_NODES) ->
              Forall2 (fun i block => theta_block x a [p0; p1; p2] i = Ok block)
                js (map (design_block x a p0 p1 p2) js)).
    { induction js as [|j js IH]; intros Hjs; [constructor|].
      cbn [map]. constructor.
      - apply theta_block_spec; try assumption. apply Hjs. now left.
      - apply IH. intros j' Hj'. apply Hjs. now right. }
    apply Hall. intros j Hj. apply in_seq in Hj. lia.
  - intros Hall.
    rewrite (get_theta_concatenates x a p0 p1 p2 Hxr Hxc Har Hac).
    assert (Hw : forall i, i < NUMBER_OF_NODES -> design_width a i = 3).
    { intros i Hi. unfold design_width.
      destruct (in_neighbours a i) eqn:Hn; [|reflexivity].
      exfalso. apply (proj2 (in_neighbours_nonempty a i) (Hall i Hi)). exact Hn. }
    set (blocks := map (design_block x a p0 p1 p2) (range NUMBER_OF_NODES)).
    assert (Hblocks : forall b, In b blocks ->
              width b = 3 /\ length (rows b) = TIME_FRAMES
              /\ Forall (fun row => length row = 3) (rows b)).
    { intros b Hb. apply in_map_iff in Hb. destruct Hb as (i & <- & Hi).
      apply in_seq in Hi. unfold design_block. cbn [width rows].
      split; [apply Hw; lia|].
      split; [unfold range; now rewrite length_map, length_seq|].
      apply Forall_forall. intros row Hrow. apply in_map_iff in Hrow.
      destruct Hrow as (t & <- & _). rewrite design_row_length. apply Hw. lia. }
    assert (Hrows : forall i t, i < NUMBER_OF_NODES -> t < TIME_FRAMES ->
              nth_error (concat (map rows blocks)) (i * TIME_FRAMES + t)
              = Some (design_row x a p0 p1 p2 i t)).
    { intros i t Hi Ht.
      rewrite (nth_error_concat_uniform TIME_FRAMES _
                 (fun l Hl =>
                    match proj1 (in_map_iff rows blocks l) Hl with
                    | ex_intro _ b (conj Hb Hin) =>
                      eq_trans (f_equal (@length vector) (eq_sym Hb))
                        (proj1 (proj2 (Hblocks b Hin)))
                    end) i t Ht).
      unfold blocks. rewrite map_map, (nth_error_map_range _ _ _ Hi).
      unfold design_block. cbn [rows]. now apply nth_error_map_range. }
    unfold np_concatenate.
    destruct blocks as [|b0 bs] eqn:Hb; [discriminate|].
    assert (Hforall : forallb (fun b => width b =? width b0) (b0 :: bs) = true).
    { apply forallb_forall. intros b Hin. apply Nat.eqb_eq.
      rewrite (proj1 (Hblocks b Hin)).
      now rewrite (proj1 (Hblocks b0 (or_introl eq_refl))). }
    rewrite Hforall. eexists. split; [reflexivity|]. cbn [width rows].
    split; [apply (Hblocks b0); now left|]. split; [|split].
    + rewrite <- Hb.
      assert (Hlen : forall l : list array2,
                (forall b, In b l -> length (rows b) = TIME_FRAMES) ->
                length (concat (map rows l)) = length l * TIME_FRAMES).
      { induction l as [|b l IH]; intros Hl; [reflexivity|].
        cbn [map concat length]. rewrite length_app, IH.
        - rewrite (Hl b) by now left. lia.
        - intros b' Hb'. apply Hl. now right. }
      rewrite Hlen.
      * unfold blocks, range. now rewrite length_map, length_seq.
      * intros b Hin. rewrite Hb in Hin. now apply Hblocks.
    + apply Forall_forall. intros row Hrow. apply in_concat in Hrow.
      destruct Hrow as (rs & Hrs & Hrow). apply in_map_iff in Hrs.
      destruct Hrs as (b & <- & Hin).
      destruct (Hblocks b Hin) as (_ & _ & Hf).
      rewrite Forall_forall in Hf. now apply Hf.
    + intros i t Hi Ht.
      assert (Hrow : design_row x a p0 p1 p2 i t
                     = [F64.of_Z 1; np_pow (item x t i) p0;
                        coupling_sum x a p1 p2 i (in_neighbours a i) t]).
      { unfold design_row. pose proof (Hw i Hi) as Hwi.
        unfold design_width in Hwi.
        destruct (in_neighbours a i); [discriminate | reflexivity]. }
      rewrite (Hrows i t Hi Ht). split; [|now rewrite Hrow].
      exists (design_block x a p0 p1 p2 i).
      split; [now apply theta_block_spec|].
      unfold design_block. cbn [rows]. symmetry.
      now apply nth_error_map_range.
Qed.

(** On a trajectory of ones and a full adjacency matrix of ones, with the
    numerics of the harness: the row of node 3 at time 5 is row 65 of the
    design matrix, and its coupling sum adds up the nine in-neighbours. *)
Lemma design_matrix_blocks_witness :
  TIME_FRAMES <= nrows Harness.x_ones
  /\ NUMBER_OF_NODES <= ncols Harness.x_ones
  /\ NUMBER_OF_NODES <= nrows Harness.a_full
  /\ NUMBER_OF_NODES <= ncols Harness.a_full
  /\ (exists block,
        @theta_block Harness.plain Harness.x_ones Harness.a_full
          [F64.of_Z 1; F64.of_Z 1; F64.of_Z 1] 0 = Ok block
        /\ length (rows block) = TIME_FRAMES)
  /\ exists theta,
       @_get_theta Harness.plain Harness.x_ones Harness.a_full
         [F64.of_Z 1; F64.of_Z 1; F64.of_Z 1] = Ok theta
       /\ length (rows theta) = 200
       /\ nth_error (rows theta) 65
          = Some [F64.of_Z 1; F64.of_Z 1; F64.of_Z 9].
Proof.
  assert (H1 : TIME_FRAMES <= nrows Harness.x_ones) by (simpl; lia).
  assert (H2 : NUMBER_OF_NODES <= ncols Harness.x_ones) by (simpl; lia).
  assert (H3 : NUMBER_OF_NODES <= nrows Harness.a_full) by (simpl; lia).
  assert (H4 : NUMBER_OF_NODES <= ncols Harness.a_full) by (simpl; lia).
  repeat (split; [assumption|]).
  pose proof (@design_matrix_blocks Harness.plain
                Harness.x_ones Harness.a_full
                (F64.of_Z 1) (F64.of_Z 1) (F64.of_Z 1) H1 H2 H3 H4)
    as (Hblock & _ & Hstack).
  split.
  - destruct (Hblock 0 ltac:(unfold NUMBER_OF_NODES; lia))
      as (block & Hb & Hl & _).
    exists block. split; assumption.
  - assert (Hfull : forall i, i < NUMBER_OF_NODES ->
              exists j, j < NUMBER_OF_NODES /\ j <> i
                /\ F64.eqb (item Harness.a_full j i) (F64.of_Z 0) = false).
    { intros i Hi. destruct i as [|i].
      - exists 1. repeat split; [unfold NUMBER_OF_NODES; lia | lia].
      - exists 0. repeat split; [unfold NUMBER_OF_NODES; lia | lia]. }
    destruct (Hstack Hfull) as (theta & Ht & _ & Hlen & _ & Hrows).
    exists theta. split; [exact Ht|]. split; [exact Hlen|].
    destruct (Hrows 3 5 ltac:(unfold NUMBER_OF_NODES; lia)
                ltac:(unfold TIME_FRAMES; lia)) as [_ Hrow].
    change 65 with (3 * TIME_FRAMES + 5).
    rewrite Hrow. vm_compute. reflexivity.
Defined.

(** * Fitness-proportionate selection *)

Lemma cumulative_fitness_step (l : list individual) (k : nat) (ind : individual) :
  nth_error l (S k) = Some ind ->
  cumulative_fitness l (S k)
  = F64.add (cumulative_fitness l k) (fitness ind).
Proof.
  destruct l as [|first rest]; [discriminate|]. cbn [nth_error].
  intros Hk. unfold cumulative_fitness.
  assert (Hf : firstn (S k) rest = firstn k rest ++ [ind]).
  { clear first. revert k Hk. induction rest as [|a rest IH]; intros [|k] Hk;
      try discriminate; cbn in *.
    - now inversion Hk.
    - now rewrite (IH k Hk). }
  rewrite Hf, map_app, fold_left_app. reflexivity.
Qed.

Lemma select_loop_spec (l : list individual) (total r : float) (n : nat) :
  forall sel : nat,
    S sel + n = length l ->
    exists k,
      select_loop l total r (seq (S sel) n) sel (cumulative_fitness l sel)
      = Ok k
      /\ sel <= k < length l
      /\ (forall j, sel <= j < k -> trips l total r j = false)
      /\ (k < length l - 1 -> trips l total r k = true).
Proof.
  induction n as [|n IH]; intros sel Hlen.
  - exists sel. cbn [seq select_loop].
    split; [reflexivity|]. split; [lia|]. split; intros; lia.
  - cbn [seq select_loop]. fold (trips l total r sel).
    destruct (trips l total r sel) eqn:Htrip.
    + exists sel. split; [reflexivity|]. split; [lia|].
      split; [intros; lia | intros _; exact Htrip].
    + destruct (nth_error l (S sel)) as [ind|] eqn:Hind.
      2:{ apply nth_error_None in Hind. lia. }
      unfold getitem. rewrite Hind. cbn [rbind].
      rewrite <- (cumulative_fitness_step l sel ind Hind).
      destruct (IH (S sel) ltac:(lia)) as (k & Hk & Hr & Hbefore & Hat).
      exists k. split; [exact Hk|]. split; [lia|]. split; [|exact Hat].
      intros j Hj. destruct (Nat.eq_dec j sel) as [->|Hne]; [exact Htrip|].
      apply Hbefore. lia.
Qed.

Lemma select_inv (l : list individual) (total : float) (t t' : tape) (k : nat) :
  _select_random_individual l total t = Done k t' ->
  exists r first,
    uniforms t = r :: uniforms t'
    /\ integers t' = integers t
    /\ unit_interval r = true
    /\ nth_error l 0 = Some first
    /\ select_loop l total r (range_from 1 (length l)) 0 (fitness first) = Ok k.
Proof.
  unfold _select_random_individual, bind, random_random, lift.
  destruct (uniforms t) as [|r rest] eqn:Hu; [discriminate|].
  fold (unit_interval r). destruct (unit_interval r) eqn:Hr; [|discriminate].
  unfold getitem. destruct (nth_error l 0) as [first|] eqn:Hf; [|discriminate].
  destruct (select_loop _ _ _ _ _ _) as [k'|e] eqn:Hs; [|discriminate].
  intros H. inversion H; subst; clear H. cbn.
  exists r, first. repeat split; auto.
Qed.

Lemma select_draw (l : list individual) (total r : float) (rest : list float)
    (ints : list Z) :
  l <> [] ->
  unit_interval r = true ->
  exists k,
    _select_random_individual l total (mk_tape (r :: rest) ints)
    = Done k (mk_tape rest ints)
    /\ k < length l
    /\ (forall j, j < k -> trips l total r j = false)
    /\ (k < length l - 1 -> trips l total r k = true).
Proof.
  intros Hne Hr. destruct l as [|first tl] eqn:Hl; [contradiction|].
  rewrite <- Hl.
  destruct (select_loop_spec l total r (length tl) 0
              ltac:(rewrite Hl; cbn; lia))
    as (k & Hk & Hrange & Hbefore & Hat).
  exists k. split.
  - unfold _select_random_individual, bind, random_random, lift.
    cbn [uniforms integers]. fold (unit_interval r). rewrite Hr.
    unfold getitem. rewrite Hl at 1. cbn [nth_error].
    unfold range_from.
    replace (length l - 1) with (length tl) by (rewrite Hl; cbn; lia).
    assert (Hc : cumulative_fitness l 0 = fitness first)
      by (rewrite Hl; reflexivity).
    rewrite Hc in Hk. rewrite Hk. reflexivity.
  - split; [lia|]. split; [|exact Hat].
    intros j Hj. apply Hbefore. lia.
Qed.

(** C7.  On a non-empty list, for a draw [r] of [0, 1), the selection
    raises nothing and returns a valid index [k]: no index before [k] has a
    cumulative fitness fraction above [r], and [k] has one unless it is the
    final index.  Every draw of [0, 1) gives a result.  Index 0 is tried
    first: it is returned as soon as its fraction exceeds the draw, and so
    for the draw 0 whenever its fraction is positive. *)
Theorem select_first_index_over_draw (l : list individual) (total : float) :
  l <> [] ->
  (forall t : tape,
      match _select_random_individual l total t with
      | Done k t' =>
        exists r,
          uniforms t = r :: uniforms t'
          /\ unit_interval r = true
          /\ k < length l
          /\ (forall j, j < k -> trips l total r j = false)
          /\ (k < length l - 1 -> trips l total r k = true)
          /\ (trips l total r 0 = true -> k = 0)
      | Raised _ => False
      | NoDraw => True
      end)
  /\ (forall (r : float) (rest : list float) (ints : list Z),
        unit_interval r = true ->
        exists k,
          _select_random_individual l total (mk_tape (r :: rest) ints)
          = Done k (mk_tape rest ints))
  /\ (F64.ltb (F64.of_Z 0) (F64.div (cumulative_fitness l 0) total) = true ->
      forall (rest : list float) (ints : list Z),
        _select_random_individual l total (mk_tape (F64.of_Z 0 :: rest) ints)
        = Done 0 (mk_tape rest ints)).
Proof.
  intros Hne. split; [|split].
  - intros t.
    destruct (_select_random_individual l total t) as [k t'|e|] eqn:Hs.
    + destruct (select_inv _ _ _ _ _ Hs) as (r & first & Hu & Hi & Hr & _ & _).
      exists r. split; [exact Hu|]. split; [exact Hr|].
      destruct (select_draw l total r (uniforms t') (integers t) Hne Hr)
        as (k' & Hk' & Hlen & Hbefore & Hat).
      assert (Ht : t = mk_tape (r :: uniforms t') (integers t))
        by (destruct t; cbn in *; now subst).
      rewrite Ht in Hs. rewrite Hk' in Hs. inversion Hs; subst k'.
      repeat split; auto.
      intros H0. destruct k as [|k]; [reflexivity|].
      rewrite (Hbefore 0) in H0 by lia. discriminate.
    + unfold _select_random_individual, bind, random_random, lift in Hs.
      destruct (uniforms t) as [|r rest] eqn:Hu; [discriminate|].
      fold (unit_interval r) in Hs.
      destruct (unit_interval r) eqn:Hr; [|discriminate].
      destruct (select_draw l total r rest (integers t) Hne Hr)
        as (k' & Hk' & _).
      unfold _select_random_individual, bind, random_random, lift in Hk'.
      cbn [uniforms integers] in Hk'. fold (unit_interval r) in Hk'.
      rewrite Hr in Hk'.
      destruct (getitem l 0); [|discriminate].
      destruct (select_loop _ _ _ _ _ _); discriminate.
    + exact I.
  - intros r rest ints Hr.
    destruct (select_draw l total r rest ints Hne Hr) as (k & Hk & _).
    now exists k.
  - intros Hpos rest ints.
    destruct (select_draw l total (F64.of_Z 0) rest ints Hne eq_refl)
      as (k & Hk & _ & Hbefore & _).
    destruct k as [|k]; [exact Hk|].
    specialize (Hbefore 0 ltac:(lia)). unfold trips in Hbefore.
    rewrite Hpos in Hbefore. discriminate.
Qed.

Lemma select_first_index_over_draw_witness :
  individuals (fst Run.started) <> []
  /\ _select_random_individual (individuals (fst Run.started))
       (py_sum (map fitness (individuals (fst Run.started))))
       (mk_tape [F64.of_Z 0] [])
     = Done 0 (mk_tape [] []).
Proof.
  assert (Hne : individuals (fst Run.started) <> [])
    by (vm_compute; discriminate).
  split; [exact Hne|].
  exact (proj2 (proj2 (select_first_index_over_draw
                         (individuals (fst Run.started))
                         (py_sum (map fitness (individuals (fst Run.started))))
                         Hne))
           ltac:(vm_compute; reflexivity) [] []).
Defined.

(** * The population *)

Lemma st_for_each_length {W A B : Type} (items : list A)
    (body : list B -> A -> St W (list B)) :
  (forall acc v s acc' s',
      body acc v s = Done acc' s' -> length acc' = S (length acc)) ->
  forall acc s res s',
    st_for_each items body acc s = Done res s' ->
    length res = length acc + length items.
Proof.
  intros Hbody. induction items as [|v items IH]; intros acc s res s' H.
  - apply ret_done in H. destruct H as [-> _]. cbn. lia.
  - cbn [st_for_each] in H. apply bind_done in H.
    destruct H as (acc' & s1 & Hb & Hrest).
    apply IH in Hrest. apply Hbody in Hb. cbn [length]. lia.
Qed.

Lemma random_chromosome_length (t t' : tape) (c : chromosome_t) :
  random_chromosome t = Done c t' -> length c = CHROMOSOME_BITS.
Proof.
  unfold random_chromosome. intros H.
  apply st_for_each_length in H.
  - rewrite H. unfold range. now rewrite length_seq.
  - intros acc v s acc' s' Hb. apply bind_done in Hb.
    destruct Hb as (z & s1 & _ & Hr). apply ret_done in Hr.
    destruct Hr as [-> _]. rewrite length_app. cbn. lia.
Qed.

Lemma mutation_length (c c' : chromosome_t) (t t' : tape) :
  _mutation c t = Done c' t' -> length c' = CHROMOSOME_BITS.
Proof.
  unfold _mutation. intros H.
  apply st_for_each_length in H.
  - rewrite H. unfold range. now rewrite length_seq.
  - intros acc v s acc' s' Hb. apply bind_done in Hb.
    destruct Hb as (r & s1 & _ & Hr).
    destruct (F64.ltb r MUTATION_CHANCE);
      apply bind_done in Hr; destruct Hr as (bit & s2 & _ & Hr);
      apply ret_done in Hr; destruct Hr as [-> _];
      rewrite length_app; cbn; lia.
Qed.

Lemma initial_individuals_length (n : nat) (t t' : tape)
    (chromosomes : list chromosome_t) :
  _get_initial_individuals n t = Done chromosomes t' ->
  length chromosomes = n.
Proof.
  unfold _get_initial_individuals. intros H.
  apply st_for_each_length in H.
  - rewrite H. unfold range. now rewrite length_seq.
  - intros acc v s acc' s' Hb. apply bind_done in Hb.
    destruct Hb as (c & s1 & _ & Hr). apply ret_done in Hr.
    destruct Hr as [-> _]. rewrite length_app. cbn. lia.
Qed.

Section PopulationProofs.

Context {numerics : Numerics}.

(** An individual is complete for a population when it is what
    [_get_complete_individual] makes of its chromosome. *)
Definition complete_in (self : population) (ind : individual) : Prop :=
  _get_complete_individual (x self) (y self) (adjacency_matrix self)
    (chromosome ind) = Ok ind.

Lemma complete_individuals_spec (self : population)
    (chromosomes : list chromosome_t) (inds : list individual) :
  _get_complete_individuals self chromosomes = Ok inds ->
  length inds = length chromosomes
  /\ forall ind, In ind inds -> complete_in self ind.
Proof.
  unfold _get_complete_individuals. intros H. split.
  - now apply comprehension_length in H.
  - intros ind Hin. destruct (comprehension_in _ _ _ _ H Hin) as (c & _ & Hc).
    unfold complete_in.
    destruct (complete_individual_inv _ _ _ _ _ Hc) as (d & _ & _ & Hch & _).
    rewrite Hch.
    exact Hc.
Qed.

Lemma population_init_inv (n : nat) (x0 y0 a0 : ndarray) (t t' : tape)
    (self : population) :
  Population_init n x0 y0 a0 t = Done self t' ->
  size self = n /\ x self = x0 /\ y self = y0 /\ adjacency_matrix self = a0
  /\ length (individuals self) = n
  /\ forall ind, In ind (individuals self) -> complete_in self ind.
Proof.
  unfold Population_init. intros H.
  apply bind_done in H. destruct H as (chromosomes & t1 & Hc & H).
  apply bind_done in H. destruct H as (inds & t2 & Hl & H).
  apply lift_done in Hl. destruct Hl as [Hl _].
  apply ret_done in H. destruct H as [-> _].
  apply initial_individuals_length in Hc.
  apply complete_individuals_spec in Hl. destruct Hl as [Hlen Hcomp].
  cbn. repeat split; auto. congruence.
Qed.

Lemma breed_length (fuel : nat) (self : population)
    (sorted_individuals : list individual) (total : float) :
  forall (children : list chromosome_t) (t t' : tape)
         (result : list chromosome_t),
    length children <= CHILDREN ->
    breed fuel self sorted_individuals total children t = Done result t' ->
    length result = CHILDREN
    /\ forall c, In c result -> In c children \/ length c = CHROMOSOME_BITS.
Proof.
  induction fuel as [|fuel IH]; intros children t t' result Hlen H;
    cbn [breed] in H;
    destruct (length children <? CHILDREN) eqn:Hlt.
  - discriminate.
  - apply ret_done in H. destruct H as [-> _].
    apply Nat.ltb_ge in Hlt. split; [lia | now left].
  - apply Nat.ltb_lt in Hlt.
    apply bind_done in H. destruct H as (i1 & t1 & _ & H).
    apply bind_done in H. destruct H as (i2 & t2 & _ & H).
    destruct (negb (i1 =? i2)).
    + apply bind_done in H. destruct H as (parents & t3 & _ & H).
      apply bind_done in H. destruct H as (crossed & t4 & _ & H).
      apply bind_done in H. destruct H as (offspring & t5 & Hm & H).
      apply IH in H; [|rewrite length_app; cbn; lia].
      destruct H as [Hres Hin]. split; [exact Hres|].
      intros c Hc. destruct (Hin c Hc) as [Hold|Hnew]; [|now right].
      apply in_app_or in Hold. destruct Hold as [Hold|[<-|[]]]; [now left|].
      right. now apply mutation_length in Hm.
    + now apply IH in H.
  - apply ret_done in H. destruct H as [-> _].
    apply Nat.ltb_ge in Hlt. split; [lia | now left].
Qed.

Lemma run_single_iteration_inv (self self' : population) (t t' : tape)
    (fittest : individual) :
  run_single_iteration self t = Done (fittest, self') t' ->
  exists (chromosomes : list chromosome_t) (children : list individual),
    length children = CHILDREN
    /\ (forall c, In c chromosomes -> length c = CHROMOSOME_BITS)
    /\ _get_complete_individuals self chromosomes = Ok children
    /\ self' = set_individuals self (survivors self children)
    /\ nth_error (survivors self children) 0 = Some fittest.
Proof.
  unfold run_single_iteration. intros H.
  apply bind_done in H. destruct H as (chromosomes & t1 & Hb & H).
  apply bind_done in H. destruct H as (children & t2 & Hc & H).
  apply lift_done in Hc. destruct Hc as [Hc _].
  apply bind_done in H. destruct H as (best & t3 & Hg & H).
  apply lift_done in Hg. destruct Hg as [Hg _].
  apply ret_done in H. destruct H as [H _]. inversion H; subst; clear H.
  apply breed_length in Hb; [|cbn; lia]. destruct Hb as [Hlen Hbits].
  exists chromosomes, children.
  pose proof (complete_individuals_spec _ _ _ Hc) as [Hl _].
  split; [congruence|]. split.
  { intros c Hin. destruct (Hbits c Hin) as [[]|Hb]. exact Hb. }
  split; [exact Hc|]. split; [reflexivity|].
  cbn [individuals set_individuals] in Hg. unfold getitem in Hg.
  destruct (nth_error (survivors self children) 0); [|discriminate].
  now inversion Hg.
Qed.

Lemma survivors_length (self : population) (children : list individual) :
  length (individuals self) = size self ->
  length (survivors self children) = size self.
Proof.
  intros H. unfold survivors.
  rewrite length_firstn, length_sorted, length_app. lia.
Qed.

Lemma survivors_in (self : population) (children : list individual)
    (ind : individual) :
  In ind (survivors self children) ->
  In ind (individuals self) \/ In ind children.
Proof.
  unfold survivors. intros H. apply in_firstn in H.
  apply in_sorted in H. now apply in_app_or.
Qed.

End PopulationProofs.

(** C8.  After initialization the population holds exactly [size]
    individuals, each complete.  A generation step evaluates CHILDREN
    offspring, sorts them together with the current individuals by
    descending fitness and keeps the first [size]: a population of [size]
    individuals has [size] individuals again after the step, and the same
    [size]. *)
Theorem population_size_invariant {numerics : Numerics} :
  (forall (n : nat) (x0 y0 a0 : ndarray) (t t' : tape) (self : population),
      Population_init n x0 y0 a0 t = Done self t' ->
      size self = n
      /\ length (individuals self) = n
      /\ forall ind, In ind (individuals self) -> complete_in self ind)
  /\ (forall (self self' : population) (t t' : tape) (fittest : individual),
        length (individuals self) = size self ->
        run_single_iteration self t = Done (fittest, self') t' ->
        size self' = size self
        /\ length (individuals self') = size self
        /\ exists children : list individual,
             length children = CHILDREN
             /\ (forall ind, In ind children -> complete_in self ind)
             /\ individuals self'
                = firstn (size self)
                    (sorted descending_fitness (individuals self ++ children))).
Proof.
  split.
  - intros n x0 y0 a0 t t' self H.
    destruct (population_init_inv _ _ _ _ _ _ _ H) as (Hs & _ & _ & _ & Hl & Hc).
    auto.
  - intros self self' t t' fittest Hlen H.
    destruct (run_single_iteration_inv _ _ _ _ _ H)
      as (chromosomes & children & Hc & _ & Hcomp & -> & _).
    cbn [size individuals set_individuals].
    split; [reflexivity|]. split; [now apply survivors_length|].
    exists children. split; [exact Hc|]. split; [|reflexivity].
    now apply complete_individuals_spec in Hcomp.
Qed.

Lemma run_started :
  @Population_init Harness.plain 2 Harness.x_ones Harness.y_ones
    Harness.a_full Run.draws
  = Done (fst Run.started) (snd Run.started).
Proof. vm_compute. reflexivity. Qed.

Lemma run_stepped :
  @run_single_iteration Harness.plain (fst Run.started) (snd Run.started)
  = Done (fst (fst Run.stepped), snd (fst Run.stepped)) (snd Run.stepped).
Proof. vm_compute. reflexivity. Qed.

Lemma population_size_invariant_witness :
  length (individuals (fst Run.started)) = 2
  /\ length (individuals (snd (fst Run.stepped))) = 2.
Proof.
  pose proof (@population_size_invariant Harness.plain) as [Hinit Hstep].
  destruct (Hinit _ _ _ _ _ _ _ run_started) as (Hsize & Hlen & _).
  split; [exact Hlen|].
  destruct (Hstep _ _ _ _ _ ltac:(rewrite Hlen, Hsize; reflexivity) run_stepped)
    as (_ & Hlen' & _).
  rewrite Hlen', Hsize. reflexivity.
Defined.

(** * The parents of an offspring *)

(** Sorting a sorted list changes nothing. *)
Fixpoint ascending {A : Type} (key : A -> float) (l : list A) : Prop :=
  match l with
  | [] => True
  | a :: rest =>
    match rest with
    | [] => True
    | b :: _ => F64.ltb (key b) (key a) = false
    end /\ ascending key rest
  end.

Lemma ascending_insert_by {A : Type} (key : A -> float) (a : A) (l : list A) :
  ascending key l -> ascending key (insert_by key a l).
Proof.
  induction l as [|h t IH]; intros Hl.
  - cbn. auto.
  - cbn [insert_by]. destruct (F64.ltb (key h) (key a)) eqn:Hha.
    + destruct Hl as [Hh Ht]. specialize (IH Ht).
      cbn [ascending]. split; [|exact IH].
      destruct t as [|b t'].
      * cbn [insert_by].
        destruct (F64.ltb (key a) (key h)) eqn:Hah; [|reflexivity].
        pose proof (ltb_trans _ _ _ Hha Hah) as Hc.
        now rewrite ltb_irrefl in Hc.
      * cbn [insert_by]. destruct (F64.ltb (key b) (key a)); [exact Hh|].
        destruct (F64.ltb (key a) (key h)) eqn:Hah; [|reflexivity].
        pose proof (ltb_trans _ _ _ Hha Hah) as Hc.
        now rewrite ltb_irrefl in Hc.
    + cbn [ascending]. split; [exact Hha|]. exact Hl.
Qed.

Lemma ascending_sorted {A : Type} (key : A -> float) (l : list A) :
  ascending key (sorted key l).
Proof.
  induction l as [|a l IH]; [exact I|].
  rewrite sorted_cons. now apply ascending_insert_by.
Qed.

Lemma ascending_firstn {A : Type} (key : A -> float) (n : nat) (l : list A) :
  ascending key l -> ascending key (firstn n l).
Proof.
  revert l. induction n as [|n IH]; intros [|a l] Hl; try exact I.
  cbn [firstn]. destruct Hl as [Ha Hl]. specialize (IH l Hl).
  cbn [ascending]. split; [|exact IH].
  destruct l as [|b l']; destruct n; cbn [firstn]; auto.
Qed.

Lemma sorted_ascending {A : Type} (key : A -> float) (l : list A) :
  ascending key l -> sorted key l = l.
Proof.
  induction l as [|a l IH]; intros Hl; [reflexivity|].
  destruct Hl as [Ha Hl]. rewrite sorted_cons, (IH Hl).
  destruct l as [|b l']; [reflexivity|]. cbn [insert_by]. now rewrite Ha.
Qed.

(** X20.  From the second generation on the population is stored sorted,
    and the indices of the selection denote the same individuals in the
    stored list and in the sorted one: the crossover gets the chromosomes
    of the individuals that were selected. *)
Lemma parents_agree_after_a_step {numerics : Numerics}
    (self self' : population) (t t' : tape) (fittest : individual)
    (i1 i2 : nat) :
  run_single_iteration self t = Done (fittest, self') t' ->
  parent_chromosomes self' i1 i2 = selected_chromosomes self' i1 i2.
Proof.
  intros H.
  destruct (run_single_iteration_inv _ _ _ _ _ H)
    as (chromosomes & children & _ & _ & _ & -> & _).
  unfold parent_chromosomes, selected_chromosomes.
  cbn [individuals set_individuals].
  rewrite (sorted_ascending descending_fitness (survivors self children));
    [reflexivity|].
  unfold survivors. apply ascending_firstn, ascending_sorted.
Qed.

(** C2.  On a population in its order of creation the two differ: for the draws
    0.5 and 0.9 the selection picks positions 0 and 1 of the sorted list,
    the fitter and then the less fit individual, and the crossover is
    handed the chromosomes at positions 0 and 1 of the stored list, the
    less fit and then the fitter one. *)
Lemma parents_not_the_selected_ones :
  let self := Run.fresh in
  let sorted_individuals := sorted descending_fitness (individuals self) in
  let total_fitness := py_sum (map fitness (individuals self)) in
  _select_random_individual sorted_individuals total_fitness
    (mk_tape [Run.half; Run.nine_tenths] [])
  = Done 0 (mk_tape [Run.nine_tenths] [])
  /\ _select_random_individual sorted_individuals total_fitness
       (mk_tape [Run.nine_tenths] [])
     = Done 1 (mk_tape [] [])
  /\ sorted_individuals = [Run.strong; Run.weak]
  /\ selected_chromosomes self 0 1
     = Ok (repeat true CHROMOSOME_BITS, repeat false CHROMOSOME_BITS)
  /\ parent_chromosomes self 0 1
     = Ok (repeat false CHROMOSOME_BITS, repeat true CHROMOSOME_BITS)
  /\ parent_chromosomes self 0 1 <> selected_chromosomes self 0 1.
Proof.
  cbv zeta. repeat split; try (vm_compute; reflexivity).
  vm_compute. discriminate.
Qed.

(** * Elitist replacement *)

Section Elitism.

Context {numerics : Numerics}.

Lemma survivors_head (self : population) (children : list individual) :
  1 <= size self ->
  individuals self <> [] ->
  (forall ind, In ind (individuals self ++ children) ->
               comparable (fitness ind) = true) ->
  exists best,
    nth_error (survivors self children) 0 = Some best
    /\ forall ind, In ind (individuals self ++ children) ->
                   F64.leb (fitness ind) (fitness best) = true.
Proof.
  intros Hsize Hne Hcmp.
  destruct (sorted_head descending_fitness (individuals self ++ children))
    as (h & rest & Hs & Hin & Hmin).
  - intros e He. unfold descending_fitness.
    destruct (comparable_inv _ (Hcmp e He)) as [Hv Hn].
    now rewrite mul_minus_one, is_nan_opp.
  - destruct (individuals self); [contradiction | discriminate].
  - exists h. unfold survivors. rewrite Hs.
    destruct (size self) as [|n]; [lia|]. cbn [firstn nth_error].
    split; [reflexivity|]. intros ind Hind.
    pose proof (Hmin ind Hind) as Hlt.
    rewrite descending_key_ltb in Hlt by auto.
    destruct (comparable_inv _ (Hcmp ind Hind)) as [_ Hn1].
    destruct (comparable_inv _ (Hcmp h Hin)) as [_ Hn2].
    now apply ltb_false_leb.
Qed.

Lemma step_elitist (self self' : population) (t t' : tape) (best : individual) :
  1 <= size self ->
  length (individuals self) = size self ->
  ranked self ->
  ranked_landscape self ->
  run_single_iteration self t = Done (best, self') t' ->
  (forall ind, In ind (individuals self) ->
               F64.leb (fitness ind) (fitness best) = true)
  /\ In best (individuals self')
  /\ 1 <= size self'
  /\ length (individuals self') = size self'
  /\ ranked self'
  /\ ranked_landscape self'.
Proof.
  intros Hsize Hlen Hrank Hland Hrun.
  destruct (run_single_iteration_inv _ _ _ _ _ Hrun)
    as (chromosomes & children & Hc & _ & Hcomp & -> & Hbest).
  destruct (complete_individuals_spec _ _ _ Hcomp) as [_ Hcomplete].
  assert (Hall : forall ind, In ind (individuals self ++ children) ->
                             comparable (fitness ind) = true).
  { intros ind Hin. apply in_app_or in Hin. destruct Hin as [Hin|Hin].
    - now apply Hrank.
    - apply (Hland (chromosome ind)). now apply Hcomplete. }
  destruct (survivors_head self children Hsize) as (h & Hh & Hmax); auto.
  { intros Hnil. rewrite Hnil in Hlen. cbn in Hlen. lia. }
  rewrite Hh in Hbest. inversion Hbest; subst h.
  cbn [individuals size set_individuals x y adjacency_matrix].
  split; [|split; [|split; [|split; [|split]]]].
  - intros ind Hin. apply Hmax. apply in_or_app. now left.
  - now apply nth_error_In in Hh.
  - exact Hsize.
  - now apply survivors_length.
  - intros ind Hin. cbn [individuals set_individuals] in Hin.
    apply Hall. apply in_or_app. now apply survivors_in in Hin.
  - exact Hland.
Qed.

Lemma generations_monotone (n : nat) :
  forall (self self' : population) (t t' : tape) (bests : list individual),
    1 <= size self ->
    length (individuals self) = size self ->
    ranked self ->
    ranked_landscape self ->
    generations n self t = Done (bests, self') t' ->
    length bests = n
    /\ (forall b ind, In b (firstn 1 bests) -> In ind (individuals self) ->
                      F64.leb (fitness ind) (fitness b) = true)
    /\ forall i a b, nth_error bests i = Some a ->
                     nth_error bests (S i) = Some b ->
                     F64.leb (fitness a) (fitness b) = true.
Proof.
  induction n as [|n IH]; intros self self' t t' bests Hsize Hlen Hrank Hland H.
  - apply ret_done in H. destruct H as [H _]. inversion H; subst.
    split; [reflexivity|]. split.
    + intros b ind [].
    + intros [|i] a b Ha; discriminate.
  - cbn [generations] in H.
    apply bind_done in H. destruct H as ([best self1] & t1 & Hstep & H).
    apply bind_done in H. destruct H as ([rest self2] & t2 & Hrest & H).
    apply ret_done in H. destruct H as [H _]. inversion H; subst; clear H.
    cbn [fst snd] in *.
    destruct (step_elitist _ _ _ _ _ Hsize Hlen Hrank Hland Hstep)
      as (Hmax & Hin & Hsize1 & Hlen1 & Hrank1 & Hland1).
    destruct (IH _ _ _ _ _ Hsize1 Hlen1 Hrank1 Hland1 Hrest)
      as (Hn & Hfirst & Hmono).
    split; [cbn; now rewrite Hn|]. split.
    + intros b ind [<-|[]] Hind. now apply Hmax.
    + intros [|i] a b Ha Hb; cbn [nth_error] in Ha, Hb.
      * inversion Ha; subst a. apply Hfirst; [|exact Hin].
        destruct rest as [|r rest']; [discriminate|].
        cbn in Hb. inversion Hb. now left.
      * now apply (Hmono i).
Qed.

End Elitism.

(** C3.  Take a population of [size >= 1] individuals whose fitness
    values, and those of every chromosome evaluated on its data, can be
    ranked (floats of the format, not NaN).  The individual a generation
    step returns is at least as fit as every individual of the population
    before the step; and over any number of successive steps each returned
    individual is at least as fit as the one returned before. *)
Theorem best_fitness_never_decreases {numerics : Numerics} (self : population) :
  1 <= size self ->
  length (individuals self) = size self ->
  ranked self ->
  ranked_landscape self ->
  (forall (t t' : tape) (best : individual) (self' : population),
      run_single_iteration self t = Done (best, self') t' ->
      forall ind, In ind (individuals self) ->
                  F64.leb (fitness ind) (fitness best) = true)
  /\ (forall (n : nat) (t t' : tape) (bests : list individual)
             (self' : population),
        generations n self t = Done (bests, self') t' ->
        length bests = n
        /\ forall i a b, nth_error bests i = Some a ->
                         nth_error bests (S i) = Some b ->
                         F64.leb (fitness a) (fitness b) = true).
Proof.
  intros Hsize Hlen Hrank Hland. split.
  - intros t t' best self' Hrun.
    now destruct (step_elitist _ _ _ _ _ Hsize Hlen Hrank Hland Hrun).
  - intros n t t' bests self' Hgen.
    destruct (generations_monotone n _ _ _ _ _ Hsize Hlen Hrank Hland Hgen)
      as (Hn & _ & Hmono).
    split; assumption.
Qed.

Lemma for_each_length {A B : Type} (items : list A)
    (body : list B -> A -> result (list B)) :
  (forall acc v acc', body acc v = Ok acc' -> length acc' = S (length acc)) ->
  forall acc res,
    for_each items body acc = Ok res ->
    length res = length acc + length items.
Proof.
  intros Hbody. induction items as [|v items IH]; intros acc res H.
  - cbn in H. inversion H. cbn. lia.
  - cbn [for_each] in H. destruct (body acc v) as [acc'|e] eqn:Hb;
      [|discriminate].
    cbn [rbind] in H. apply IH in H. apply Hbody in Hb. cbn [length]. lia.
Qed.

Lemma decode_length (chrom : chromosome_t) (decoded : list float) :
  decode chrom = Ok decoded -> length decoded = CHROMOSOME_SIZE.
Proof.
  unfold decode. intros H. apply for_each_length in H.
  - rewrite H. unfold range. now rewrite length_seq.
  - intros acc i acc' Hb.
    destruct (gene_binary chrom i); [|discriminate].
    cbn [rbind] in Hb. inversion Hb. rewrite length_app. cbn. lia.
Qed.

(** On the data of the run of the harness every chromosome has mean
    squared error 1 and fitness 1. *)
Lemma harness_fitness (chrom : chromosome_t) (ind : individual) :
  @_get_complete_individual Harness.plain Harness.x_ones Harness.y_ones
    Harness.a_full chrom = Ok ind ->
  fitness ind = F64.of_Z 1.
Proof.
  intros H.
  destruct (complete_individual_inv _ _ _ _ _ H)
    as (decoded & Hd & Hf & _ & _ & Hfit).
  apply decode_length in Hd.
  destruct decoded as [|p0 [|p1 [|p2 [|p3 rest]]]]; try discriminate Hd.
  rewrite Hfit. clear Hfit. revert Hf.
  generalize (mse ind). generalize (coefficients ind). intros cs m Hf.
  vm_compute in Hf. inversion Hf as [[Hc Hm]]. reflexivity.
Qed.

Lemma harness_landscape : @ranked_landscape Harness.plain (fst Run.started).
Proof.
  intros chrom ind H.
  assert (Hx : x (fst Run.started) = Harness.x_ones) by (vm_compute; reflexivity).
  assert (Hy : y (fst Run.started) = Harness.y_ones) by (vm_compute; reflexivity).
  assert (Ha : adjacency_matrix (fst Run.started) = Harness.a_full)
    by (vm_compute; reflexivity).
  rewrite Hx, Hy, Ha in H. apply harness_fitness in H. rewrite H. reflexivity.
Qed.

Lemma harness_ranked : ranked (fst Run.started).
Proof.
  intros ind Hin.
  destruct (@population_init_inv Harness.plain _ _ _ _ _ _ _ run_started)
    as (_ & _ & _ & _ & _ & Hcomplete).
  apply (harness_landscape (chromosome ind)). now apply Hcomplete.
Qed.

Lemma best_fitness_never_decreases_witness :
  Forall (fun ind =>
            F64.leb (fitness ind) (fitness (fst (fst Run.stepped))) = true)
         (individuals (fst Run.started)).
Proof.
  apply Forall_forall.
  exact (proj1 (@best_fitness_never_decreases Harness.plain (fst Run.started)
                  ltac:(vm_compute; lia) ltac:(vm_compute; reflexivity)
                  harness_ranked harness_landscape)
           _ _ _ _ run_stepped).
Defined.

(** * Counting the chromosomes and the values above the best fitness *)







Lemma driver_pass_inv {numerics : Numerics} (W : Type)
    (generation : St W individual) (d d' : driver) (w w' : W) :
  driver_pass generation d w = Done d' w' ->
  counter d' = (counter d + 1)%Z
  /\ ((best_fitness d' = best_fitness d /\ best_index d' = best_index d)
      \/ (F64.ltb (best_fitness d) (best_fitness d') = true
          /\ best_index d' = counter d')).
Proof.
  unfold driver_pass. intros H.
  apply bind_done in H. destruct H as (fittest & w1 & _ & H).
  apply bind_done in H. destruct H as (error & w2 & _ & H).
  destruct (F64.ltb (best_fitness d) (fitness fittest)) eqn:Himp;
    apply ret_done in H; destruct H as [-> _]; cbn; auto.
Qed.

(** * Mutation *)

Lemma random_random_draw (r : float) (us : list float) (ints : list Z) :
  unit_interval r = true ->
  random_random (mk_tape (r :: us) ints) = Done r (mk_tape us ints).
Proof.
  intros Hr. unfold random_random. cbn [uniforms integers].
  fold (unit_interval r). now rewrite Hr.
Qed.

Lemma mutation_loop (chrom : chromosome_t) (rest : list float) (ints : list Z) :
  forall (us : list float) (i : nat) (acc : chromosome_t),
    unit_draws us ->
    i + length us <= length chrom ->
    st_for_each (seq i (length us))
      (fun mutated_chromosome i =>
         r <- random_random ;;
         if F64.ltb r MUTATION_CHANCE then
           bit <- lift (getitem chrom i) ;;
           ret (mutated_chromosome ++ [negb bit])
         else
           bit <- lift (getitem chrom i) ;;
           ret (mutated_chromosome ++ [bit]))%st
      acc (mk_tape (us ++ rest) ints)
    = Done (acc ++ map (fun p => mutated_bit (fst p) (snd p))
                       (combine us (skipn i chrom)))
           (mk_tape rest ints).
Proof.
  induction us as [|r us IH]; intros i acc Hus Hlen.
  - cbn. now rewrite app_nil_r.
  - inversion Hus as [|r' us' Hr Hus']; subst.
    cbn [length seq st_for_each app]. unfold bind at 1. unfold bind at 1.
    rewrite (random_random_draw r (us ++ rest) ints Hr).
    destruct (nth_error chrom i) as [bit|] eqn:Hbit.
    2:{ apply nth_error_None in Hbit. cbn [length] in Hlen. lia. }
    rewrite (skipn_nth_error chrom i bit Hbit). cbn [combine map fst snd].
    unfold mutated_bit at 1.
    destruct (F64.ltb r MUTATION_CHANCE);
      unfold bind, lift, getitem, ret; rewrite Hbit;
      (rewrite (IH (S i) _ Hus') by (cbn [length] in Hlen; lia));
      now rewrite <- app_assoc.
Qed.

Lemma combine_nth_error {A B : Type} (l1 : list A) :
  forall (l2 : list B) (i : nat) (a : A) (b : B),
    nth_error l1 i = Some a -> nth_error l2 i = Some b ->
    nth_error (combine l1 l2) i = Some (a, b).
Proof.
  induction l1 as [|u l1 IH]; intros [|c l2] [|i] a b Ha Hb;
    cbn in *; try discriminate.
  - now inversion Ha; inversion Hb.
  - now apply IH.
Qed.

Lemma mutation_result (chrom : chromosome_t) (us rest : list float)
    (ints : list Z) :
  CHROMOSOME_BITS <= length chrom ->
  length us = CHROMOSOME_BITS ->
  unit_draws us ->
  _mutation chrom (mk_tape (us ++ rest) ints)
  = Done (map (fun p => mutated_bit (fst p) (snd p)) (combine us chrom))
         (mk_tape rest ints).
Proof.
  intros Hlen Hus Hunit. unfold _mutation, range. rewrite <- Hus.
  exact (mutation_loop chrom rest ints us 0 [] Hunit ltac:(lia)).
Qed.

(** X1.  On a chromosome of at least CHROMOSOME_BITS bits the mutation
    raises nothing, takes exactly CHROMOSOME_BITS draws and returns
    CHROMOSOME_BITS bits: bit [i] of the chromosome flipped when draw [i]
    is below MUTATION_CHANCE and unchanged otherwise; further bits of the
    chromosome are dropped. *)
Theorem mutation_flips_by_draw (chrom : chromosome_t) (us rest : list float)
    (ints : list Z) :
  CHROMOSOME_BITS <= length chrom ->
  length us = CHROMOSOME_BITS ->
  unit_draws us ->
  exists mutated,
    _mutation chrom (mk_tape (us ++ rest) ints)
    = Done mutated (mk_tape rest ints)
    /\ length mutated = CHROMOSOME_BITS
    /\ forall i r bit,
         nth_error us i = Some r -> nth_error chrom i = Some bit ->
         nth_error mutated i = Some (mutated_bit r bit).
Proof.
  intros Hlen Hus Hunit.
  exists (map (fun p => mutated_bit (fst p) (snd p)) (combine us chrom)).
  split; [|split].
  - now apply mutation_result.
  - rewrite length_map, length_combine. lia.
  - intros i r bit Hr Hb. rewrite nth_error_map.
    now rewrite (combine_nth_error us chrom i r bit Hr Hb).
Qed.

Lemma mutation_flips_by_draw_witness :
  _mutation (repeat false CHROMOSOME_BITS)
    (mk_tape (repeat Run.half CHROMOSOME_BITS ++ []) [])
  = Done (repeat false CHROMOSOME_BITS) (mk_tape [] []).
Proof.
  destruct (mutation_flips_by_draw (repeat false CHROMOSOME_BITS)
              (repeat Run.half CHROMOSOME_BITS) [] []
              ltac:(vm_compute; lia) ltac:(vm_compute; reflexivity)
              ltac:(unfold unit_draws; apply Forall_forall; intros r Hr;
                    apply repeat_spec in Hr; subst r; reflexivity))
    as (mutated & Hm & _ & _).
  rewrite Hm. vm_compute in Hm. now inversion Hm.
Defined.

Lemma mutation_short_loop (chrom : chromosome_t) (rest : list float)
    (ints : list Z) :
  forall (us : list float) (n i : nat) (acc : chromosome_t),
    unit_draws us ->
    i <= length chrom ->
    i + length us = S (length chrom) ->
    length us <= n ->
    st_for_each (seq i n)
      (fun mutated_chromosome i =>
         r <- random_random ;;
         if F64.ltb r MUTATION_CHANCE then
           bit <- lift (getitem chrom i) ;;
           ret (mutated_chromosome ++ [negb bit])
         else
           bit <- lift (getitem chrom i) ;;
           ret (mutated_chromosome ++ [bit]))%st
      acc (mk_tape (us ++ rest) ints)
    = Raised IndexError.
Proof.
  induction us as [|r us IH]; intros n i acc Hus Hi0 Hlen Hn.
  - cbn [length] in Hlen. lia.
  - inversion Hus as [|r' us' Hr Hus']; subst.
    destruct n as [|n]; [cbn [length] in Hn; lia|].
    cbn [length seq st_for_each app]. unfold bind at 1. unfold bind at 1.
    rewrite (random_random_draw r (us ++ rest) ints Hr).
    destruct (nth_error chrom i) as [bit|] eqn:Hbit.
    + assert (Hi : i < length chrom)
        by (apply nth_error_Some; now rewrite Hbit).
      destruct (F64.ltb r MUTATION_CHANCE);
        unfold bind, lift, getitem, ret; rewrite Hbit;
        apply IH; auto; cbn [length] in *; lia.
    + destruct (F64.ltb r MUTATION_CHANCE);
        unfold bind, lift, getitem; rewrite Hbit; reflexivity.
Qed.

(** X2.  On a chromosome of fewer than CHROMOSOME_BITS bits the mutation
    raises IndexError, once it has a draw for each bit and one more. *)
Theorem mutation_short_chromosome (chrom : chromosome_t)
    (us rest : list float) (ints : list Z) :
  length chrom < CHROMOSOME_BITS ->
  length us = S (length chrom) ->
  unit_draws us ->
  _mutation chrom (mk_tape (us ++ rest) ints) = Raised IndexError.
Proof.
  intros Hlen Hus Hunit. unfold _mutation, range.
  apply mutation_short_loop; auto; lia.
Qed.

Lemma mutation_short_chromosome_witness :
  _mutation [true] (mk_tape ([Run.half; Run.half] ++ []) [])
  = Raised IndexError.
Proof.
  apply mutation_short_chromosome.
  - vm_compute. lia.
  - reflexivity.
  - repeat constructor.
Defined.

(** * More on the gene codec *)

Lemma power_step (n : nat) :
  S n < 2 ^ GENE_SIZE ->
  F64.ltb (power_of_binary (Z.of_nat n)) (power_of_binary (Z.of_nat (S n)))
  = true.
Proof.
  intros Hn.
  assert (Hall : forallb
                   (fun n => F64.ltb (power_of_binary (Z.of_nat n))
                                     (power_of_binary (Z.of_nat (S n))))
                   (seq 0 4095) = true) by (vm_compute; reflexivity).
  rewrite forallb_forall in Hall. apply (Hall n). apply in_seq.
  change (2 ^ GENE_SIZE) with 4096 in Hn. lia.
Qed.

Lemma power_increasing_nat (d n : nat) :
  n + S d < 2 ^ GENE_SIZE ->
  F64.ltb (power_of_binary (Z.of_nat n))
          (power_of_binary (Z.of_nat (n + S d))) = true.
Proof.
  change (2 ^ GENE_SIZE) with 4096.
  induction d as [|d IH]; intros Hn.
  - replace (n + 1) with (S n) by lia. apply power_step.
    change (2 ^ GENE_SIZE) with 4096. lia.
  - apply (ltb_trans _ (power_of_binary (Z.of_nat (n + S d)))).
    + apply IH. lia.
    + replace (n + S (S d)) with (S (n + S d)) by lia.
      apply power_step. change (2 ^ GENE_SIZE) with 4096. lia.
Qed.

Lemma power_increasing (b1 b2 : Z) :
  (0 <= b1 < b2)%Z -> (b2 <= 2 ^ Z.of_nat GENE_SIZE - 1)%Z ->
  F64.ltb (power_of_binary b1) (power_of_binary b2) = true.
Proof.
  intros H1 H2.
  pose proof (power_increasing_nat (Z.to_nat (b2 - b1 - 1)) (Z.to_nat b1))
    as H.
  replace (Z.to_nat b1 + S (Z.to_nat (b2 - b1 - 1))) with (Z.to_nat b2)
    in H by lia.
  rewrite !Z2Nat.id in H by lia. apply H.
  change (2 ^ Z.of_nat GENE_SIZE)%Z with 4096%Z in H2.
  change (2 ^ GENE_SIZE) with 4096. lia.
Qed.

(** X3.  Decoding is strictly increasing in the integer of a gene: of two
    gene integers between 0 and 2^GENE_SIZE - 1 the greater decodes to the
    strictly greater power, so different integers never share a power. *)
Theorem power_strictly_increasing (b1 b2 : Z) :
  (0 <= b1 < b2)%Z -> (b2 <= 2 ^ Z.of_nat GENE_SIZE - 1)%Z ->
  F64.ltb (power_of_binary b1) (power_of_binary b2) = true
  /\ power_of_binary b1 <> power_of_binary b2.
Proof.
  intros H1 H2.
  pose proof (power_increasing b1 b2 H1 H2) as Hlt.
  split; [exact Hlt|]. intros Heq. rewrite Heq in Hlt.
  now rewrite ltb_irrefl in Hlt.
Qed.

Lemma power_strictly_increasing_witness :
  F64.ltb (power_of_binary 7) (power_of_binary 4095) = true.
Proof.
  apply (power_strictly_increasing 7 4095).
  - lia.
  - vm_compute. congruence.
Defined.

Lemma unsigned_msb_first_injective (l1 : list bool) :
  forall l2, length l1 = length l2 ->
             unsigned_msb_first l1 = unsigned_msb_first l2 -> l1 = l2.
Proof.
  induction l1 as [|b1 l1 IH]; intros [|b2 l2] Hlen Hv; try discriminate.
  - reflexivity.
  - injection Hlen as Hlen. cbn [unsigned_msb_first] in Hv.
    pose proof (unsigned_msb_first_range l1) as R1.
    pose proof (unsigned_msb_first_range l2) as R2.
    rewrite <- Hlen in Hv, R2.
    assert (0 < 2 ^ Z.of_nat (length l1))%Z by (apply Z.pow_pos_nonneg; lia).
    assert (Hb : b1 = b2) by (destruct b1, b2; cbn [Z.b2z] in Hv; try reflexivity; lia).
    subst b2. f_equal. apply IH; [exact Hlen | lia].
Qed.

Lemma power_injective (b1 b2 : Z) :
  (0 <= b1 <= 2 ^ Z.of_nat GENE_SIZE - 1)%Z ->
  (0 <= b2 <= 2 ^ Z.of_nat GENE_SIZE - 1)%Z ->
  power_of_binary b1 = power_of_binary b2 -> b1 = b2.
Proof.
  intros H1 H2 Heq.
  destruct (Z.lt_trichotomy b1 b2) as [Hlt|[Heq'|Hgt]]; [|exact Heq'|].
  - exfalso.
    pose proof (power_increasing b1 b2 ltac:(lia) ltac:(lia)) as H.
    rewrite Heq in H. now rewrite ltb_irrefl in H.
  - exfalso.
    pose proof (power_increasing b2 b1 ltac:(lia) ltac:(lia)) as H.
    rewrite Heq in H. now rewrite ltb_irrefl in H.
Qed.

Lemma chromosome_blocks (chrom : chromosome_t) :
  length chrom = CHROMOSOME_BITS ->
  chrom = gene_bits chrom 0 ++ gene_bits chrom 1 ++ gene_bits chrom 2.
Proof.
  intros Hlen. unfold gene_bits.
  rewrite <- (firstn_skipn GENE_SIZE chrom) at 1. cbn [Nat.mul skipn].
  f_equal.
  rewrite <- (firstn_skipn GENE_SIZE (skipn GENE_SIZE chrom)) at 1.
  rewrite Nat.add_0_r. f_equal.
  rewrite skipn_skipn.
  rewrite firstn_all2; [reflexivity|].
  rewrite length_skipn, Hlen. unfold CHROMOSOME_BITS, CHROMOSOME_SIZE. lia.
Qed.

(** X4.  The powers determine the chromosome: two chromosomes of
    CHROMOSOME_BITS bits that decode to the same powers are equal. *)
Theorem decode_injective (c1 c2 : chromosome_t) (decoded : list float) :
  length c1 = CHROMOSOME_BITS ->
  length c2 = CHROMOSOME_BITS ->
  decode c1 = Ok decoded ->
  decode c2 = Ok decoded ->
  c1 = c2.
Proof.
  intros H1 H2 D1 D2.
  rewrite (decode_spec c1 H1) in D1. rewrite (decode_spec c2 H2) in D2.
  rewrite <- D2 in D1. clear D2. injection D1 as D0 D1' D2'.
  assert (Hblock : forall c i, length c = CHROMOSOME_BITS -> i < CHROMOSOME_SIZE ->
            length (gene_bits c i) = GENE_SIZE
            /\ (0 <= unsigned_msb_first (gene_bits c i)
                  <= 2 ^ Z.of_nat GENE_SIZE - 1)%Z).
  { intros c i Hc Hi.
    assert (Hl : length (gene_bits c i) = GENE_SIZE).
    { apply gene_bits_length. rewrite Hc.
      unfold CHROMOSOME_BITS, CHROMOSOME_SIZE in *. nia. }
    split; [exact Hl|].
    pose proof (unsigned_msb_first_range (gene_bits c i)) as R.
    now rewrite Hl in R. }
  assert (Hgene : forall i, i < CHROMOSOME_SIZE ->
            power_of_binary (unsigned_msb_first (gene_bits c1 i))
            = power_of_binary (unsigned_msb_first (gene_bits c2 i)) ->
            gene_bits c1 i = gene_bits c2 i).
  { intros i Hi Hp.
    destruct (Hblock c1 i H1 Hi) as [L1 R1].
    destruct (Hblock c2 i H2 Hi) as [L2 R2].
    apply unsigned_msb_first_injective; [congruence|].
    now apply power_injective. }
  rewrite (chromosome_blocks c1 H1), (chromosome_blocks c2 H2).
  rewrite (Hgene 0), (Hgene 1), (Hgene 2);
    try (unfold CHROMOSOME_SIZE; lia); auto.
Qed.

Lemma decode_injective_witness :
  repeat true CHROMOSOME_BITS = repeat true CHROMOSOME_BITS.
Proof.
  apply (decode_injective (repeat true CHROMOSOME_BITS)
           (repeat true CHROMOSOME_BITS)
           (repeat (F64.sub max_power STEP) CHROMOSOME_SIZE));
    vm_compute; reflexivity.
Defined.

(** X5.  No decoded power carries a rounding error: the power of the gene
    integer [b] is exactly [b * 2 ^ (1 - GENE_SIZE)], that is
    [min_power + b * (max_power - min_power) / 2 ^ GENE_SIZE]. *)
Theorem power_is_exact (b : Z) :
  (0 <= b <= 2 ^ Z.of_nat GENE_SIZE - 1)%Z ->
  exactly (power_of_binary b) b (1 - Z.of_nat GENE_SIZE) = true.
Proof.
  intros Hb.
  assert (Hall : forallb (fun n => exactly (power_of_binary (Z.of_nat n))
                                     (Z.of_nat n) (1 - Z.of_nat GENE_SIZE))
                   (seq 0 (2 ^ GENE_SIZE)) = true) by (vm_compute; reflexivity).
  rewrite forallb_forall in Hall.
  specialize (Hall (Z.to_nat b)). rewrite Z2Nat.id in Hall by lia.
  apply Hall. apply in_seq.
  change (2 ^ Z.of_nat GENE_SIZE)%Z with 4096%Z in Hb.
  change (2 ^ GENE_SIZE) with 4096. lia.
Qed.

Lemma power_is_exact_witness :
  exactly (power_of_binary 2048) 2048 (1 - Z.of_nat GENE_SIZE) = true.
Proof. apply power_is_exact. vm_compute. split; congruence. Defined.

Lemma gene_loop_fails (chrom : chromosome_t) (i n : nat) :
  forall (j0 : nat) (acc : Z),
    i * GENE_SIZE + j0 <= length chrom \/ 1 <= n ->
    length chrom < i * GENE_SIZE + j0 + n ->
    for_each (seq j0 n)
      (fun binary j =>
         bit <- getitem chrom (i * GENE_SIZE + j) ;;
         Ok (binary + Z.b2z bit * 2 ^ Z.of_nat (GENE_SIZE - j - 1))%Z)
      acc
    = Raise IndexError.
Proof.
  induction n as [|n IH]; intros j0 acc Hlow Hhigh.
  - destruct Hlow; lia.
  - cbn [seq for_each]. unfold getitem at 1.
    destruct (nth_error chrom (i * GENE_SIZE + j0)) as [bit|] eqn:Hbit.
    + cbn [rbind].
      assert (i * GENE_SIZE + j0 < length chrom)
        by (apply nth_error_Some; now rewrite Hbit).
      apply IH; [left|]; lia.
    + reflexivity.
Qed.

Lemma gene_binary_fails (chrom : chromosome_t) (i : nat) :
  length chrom < i * GENE_SIZE + GENE_SIZE ->
  gene_binary chrom i = Raise IndexError.
Proof.
  intros H. unfold gene_binary, range.
  apply gene_loop_fails; [right; unfold GENE_SIZE|]; lia.
Qed.

Lemma gene_bits_firstn (chrom : chromosome_t) (i : nat) :
  i < CHROMOSOME_SIZE ->
  gene_bits (firstn CHROMOSOME_BITS chrom) i = gene_bits chrom i.
Proof.
  intros Hi. unfold gene_bits.
  rewrite skipn_firstn_comm, firstn_firstn. f_equal.
  unfold CHROMOSOME_BITS, CHROMOSOME_SIZE in *. nia.
Qed.

Lemma decode_short (chrom : chromosome_t) :
  length chrom < CHROMOSOME_BITS -> decode chrom = Raise IndexError.
Proof.
  intros Hlen. unfold decode, range. cbn [CHROMOSOME_SIZE seq for_each].
  change CHROMOSOME_BITS with (3 * GENE_SIZE) in Hlen.
  destruct (Nat.lt_ge_cases (length chrom) (0 * GENE_SIZE + GENE_SIZE))
    as [H0|H0].
  { now rewrite (gene_binary_fails chrom 0 H0). }
  rewrite (gene_binary_spec chrom 0 H0). cbn [rbind].
  destruct (Nat.lt_ge_cases (length chrom) (1 * GENE_SIZE + GENE_SIZE))
    as [H1|H1].
  { now rewrite (gene_binary_fails chrom 1 H1). }
  rewrite (gene_binary_spec chrom 1 H1). cbn [rbind].
  rewrite (gene_binary_fails chrom 2) by lia. reflexivity.
Qed.

(** X6.  Decoding reads the first CHROMOSOME_BITS bits only: a shorter
    chromosome raises IndexError, and on a longer one the bits beyond are
    ignored, the result being that of its first CHROMOSOME_BITS bits. *)
Theorem decode_reads_first_bits (chrom : chromosome_t) :
  (length chrom < CHROMOSOME_BITS -> decode chrom = Raise IndexError)
  /\ (CHROMOSOME_BITS <= length chrom ->
      decode chrom = decode (firstn CHROMOSOME_BITS chrom)
      /\ exists decoded, decode chrom = Ok decoded
                         /\ length decoded = CHROMOSOME_SIZE).
Proof.
  split.
  - apply decode_short.
  - intros Hlen.
    assert (Hd : forall c, CHROMOSOME_BITS <= length c ->
              decode c
              = Ok (map (fun i => power_of_binary
                                    (unsigned_msb_first (gene_bits c i)))
                        (range CHROMOSOME_SIZE))).
    { intros c Hc. unfold decode, range. cbn [CHROMOSOME_SIZE seq for_each map].
      change CHROMOSOME_BITS with (3 * GENE_SIZE) in Hc.
      rewrite !gene_binary_spec by lia. reflexivity. }
    split.
    + rewrite (Hd chrom Hlen).
      rewrite (Hd (firstn CHROMOSOME_BITS chrom))
        by (rewrite length_firstn; lia).
      f_equal. apply map_ext_in. intros i Hi. apply in_seq in Hi.
      now rewrite gene_bits_firstn by lia.
    + eexists. split; [apply (Hd chrom Hlen)|].
      unfold range. now rewrite length_map, length_seq.
Qed.

Lemma decode_reads_first_bits_witness :
  decode [true; false] = Raise IndexError
  /\ decode (repeat true CHROMOSOME_BITS ++ [false])
     = decode (firstn CHROMOSOME_BITS (repeat true CHROMOSOME_BITS ++ [false])).
Proof.
  split.
  - apply (proj1 (decode_reads_first_bits [true; false])). vm_compute. lia.
  - apply (proj2 (decode_reads_first_bits
                    (repeat true CHROMOSOME_BITS ++ [false]))).
    vm_compute. lia.
Defined.

(** * The design matrix when nodes lack in-neighbours *)

Lemma design_block_in {numerics : Numerics} (x a : ndarray)
    (p0 p1 p2 : float) (i : nat) :
  i < NUMBER_OF_NODES ->
  In (design_block x a p0 p1 p2 i)
     (map (design_block x a p0 p1 p2) (range NUMBER_OF_NODES)).
Proof. intros Hi. apply in_map. apply in_seq. lia. Qed.

(** X7.  When two nodes disagree, one having an in-neighbour and the other
    none, their blocks have 3 and 2 columns and the stacking raises
    ValueError. *)
Theorem theta_mixed_widths_raise {numerics : Numerics} (x a : ndarray)
    (p0 p1 p2 : float) (i j : nat) :
  TIME_FRAMES <= nrows x ->
  NUMBER_OF_NODES <= ncols x ->
  NUMBER_OF_NODES <= nrows a ->
  NUMBER_OF_NODES <= ncols a ->
  i < NUMBER_OF_NODES -> j < NUMBER_OF_NODES ->
  in_neighbours a i = [] ->
  in_neighbours a j <> [] ->
  _get_theta x a [p0; p1; p2] = Raise ValueError.
Proof.
  intros Hxr Hxc Har Hac Hi Hj Hnone Hsome.
  rewrite (get_theta_concatenates x a p0 p1 p2 Hxr Hxc Har Hac).
  pose proof (design_block_in x a p0 p1 p2 i Hi) as Ini.
  pose proof (design_block_in x a p0 p1 p2 j Hj) as Inj.
  unfold np_concatenate.
  destruct (map (design_block x a p0 p1 p2) (range NUMBER_OF_NODES))
    as [|b0 bs]; [destruct Ini|].
  destruct (forallb (fun b => width b =? width b0) (b0 :: bs)) eqn:Hall;
    [|reflexivity].
  rewrite forallb_forall in Hall.
  pose proof (Hall _ Ini) as Wi. pose proof (Hall _ Inj) as Wj.
  apply Nat.eqb_eq in Wi. apply Nat.eqb_eq in Wj.
  unfold design_block in Wi, Wj. cbn [width] in Wi, Wj.
  unfold design_width in Wi, Wj. rewrite Hnone in Wi.
  destruct (in_neighbours a j); [contradiction|]. congruence.
Qed.

Lemma theta_mixed_widths_raise_witness :
  @_get_theta Harness.plain Harness.x_ones Harness.a_one_edge
    [F64.of_Z 1; F64.of_Z 1; F64.of_Z 1] = Raise ValueError.
Proof.
  apply (@theta_mixed_widths_raise Harness.plain Harness.x_ones
           Harness.a_one_edge (F64.of_Z 1) (F64.of_Z 1) (F64.of_Z 1) 0 1);
    try (cbn; unfold NUMBER_OF_NODES, TIME_FRAMES; lia).
  - vm_compute. reflexivity.
  - vm_compute. discriminate.
Defined.

(** X8.  When no node has an in-neighbour, every block has the intercept
    and the self term only, and the design matrix has
    NUMBER_OF_NODES * TIME_FRAMES rows of exactly 2 columns. *)
Theorem theta_without_coupling {numerics : Numerics} (x a : ndarray)
    (p0 p1 p2 : float) :
  TIME_FRAMES <= nrows x ->
  NUMBER_OF_NODES <= ncols x ->
  NUMBER_OF_NODES <= nrows a ->
  NUMBER_OF_NODES <= ncols a ->
  (forall i, i < NUMBER_OF_NODES -> in_neighbours a i = []) ->
  _get_theta x a [p0; p1; p2]
  = Ok (mk_array2 2
          (concat (map (fun i =>
                          map (fun t => [F64.of_Z 1; np_pow (item x t i) p0])
                              (range TIME_FRAMES))
                       (range NUMBER_OF_NODES)))).
Proof.
  intros Hxr Hxc Har Hac Hnone.
  rewrite (get_theta_concatenates x a p0 p1 p2 Hxr Hxc Har Hac).
  assert (Hblocks : map (design_block x a p0 p1 p2) (range NUMBER_OF_NODES)
                    = map (fun i => mk_array2 2
                             (map (fun t => [F64.of_Z 1;
                                             np_pow (item x t i) p0])
                                  (range TIME_FRAMES)))
                          (range NUMBER_OF_NODES)).
  { apply map_ext_in. intros i Hi. apply in_seq in Hi.
    unfold design_block, design_width, design_row.
    rewrite (Hnone i) by lia. reflexivity. }
  rewrite Hblocks. unfold np_concatenate.
  cbn [NUMBER_OF_NODES range seq map forallb width Nat.eqb andb rows].
  reflexivity.
Qed.

Lemma theta_edges_isolated :
  forall i, i < NUMBER_OF_NODES ->
            in_neighbours (Harness.constant NUMBER_OF_NODES NUMBER_OF_NODES
                             (F64.of_Z 0)) i = [].
Proof.
  intros i Hi. unfold NUMBER_OF_NODES in Hi.
  do 10 (destruct i as [|i]; [vm_compute; reflexivity|]). lia.
Qed.

Lemma theta_without_coupling_witness :
  exists theta,
    @_get_theta Harness.plain Harness.x_ones
      (Harness.constant NUMBER_OF_NODES NUMBER_OF_NODES (F64.of_Z 0))
      [F64.of_Z 1; F64.of_Z 1; F64.of_Z 1] = Ok theta
    /\ width theta = 2.
Proof.
  eexists. split.
  - apply (@theta_without_coupling Harness.plain);
      try (cbn; unfold NUMBER_OF_NODES, TIME_FRAMES; lia).
    exact theta_edges_isolated.
  - reflexivity.
Defined.

(** * Selections that cannot produce two parents *)

Lemma leb_ltb_trans (a b c : float) :
  F64.leb a b = true -> F64.ltb b c = true -> F64.ltb a c = true.
Proof.
  intros Hab Hbc. destruct (ltb_not_nan _ _ Hbc) as [Hb Hc].
  assert (Ha : F64.is_nan a = false).
  { destruct a; try reflexivity. destruct b; discriminate. }
  apply (leb_order_key a b Ha Hb) in Hab.
  apply (ltb_order_key b c Hb Hc) in Hbc.
  apply (ltb_order_key a c Ha Hc). unfold key_lt in *. lia.
Qed.

(** X9.  The selected index grows with the draw: of two draws of [0, 1)
    the larger one never selects an earlier individual. *)
Theorem select_monotone_in_draw (l : list individual) (total r r' : float)
    (rest rest' : list float) (ints ints' : list Z) (k k' : nat) :
  F64.leb r r' = true ->
  _select_random_individual l total (mk_tape (r :: rest) ints)
  = Done k (mk_tape rest ints) ->
  _select_random_individual l total (mk_tape (r' :: rest') ints')
  = Done k' (mk_tape rest' ints') ->
  k <= k'.
Proof.
  intros Hle Hk Hk'.
  assert (Hne : l <> []).
  { intros ->. unfold _select_random_individual, bind, random_random in Hk.
    cbn [uniforms] in Hk. destruct (_ && _); discriminate. }
  assert (Hr : forall q qs js j,
            _select_random_individual l total (mk_tape (q :: qs) js)
            = Done j (mk_tape qs js) -> unit_interval q = true).
  { intros q qs js j H. apply select_inv in H.
    destruct H as (q0 & first & Hu & _ & Hq & _). cbn in Hu.
    now inversion Hu; subst. }
  destruct (select_draw l total r rest ints Hne (Hr _ _ _ _ Hk))
    as (j & Hj & _ & Hbefore & _).
  rewrite Hk in Hj. inversion Hj; subst j.
  destruct (select_draw l total r' rest' ints' Hne (Hr _ _ _ _ Hk'))
    as (j' & Hj' & Hlen' & _ & Hat').
  rewrite Hk' in Hj'. inversion Hj'; subst j'.
  destruct (Nat.le_gt_cases k k') as [Hok|Hlt]; [exact Hok|]. exfalso.
  pose proof (Hbefore k' Hlt) as Hno.
  destruct (select_draw l total r rest ints Hne (Hr _ _ _ _ Hk))
    as (j & Hj2 & Hlen & _).
  rewrite Hk in Hj2. inversion Hj2; subst j.
  specialize (Hat' ltac:(lia)). unfold trips in *.
  rewrite (leb_ltb_trans _ _ _ Hle Hat') in Hno. discriminate.
Qed.

Lemma select_monotone_in_draw_witness : 0 <= 1.
Proof.
  apply (select_monotone_in_draw [Run.strong; Run.weak] (F64.of_Z 5)
           Run.half Run.nine_tenths [] [] [] []).
  - vm_compute. reflexivity.
  - vm_compute. reflexivity.
  - vm_compute. reflexivity.
Defined.

Lemma ltb_zero_false (r : float) (s : bool) :
  F64.leb (F64.of_Z 0) r = true -> F64.ltb r (S754_zero s) = false.
Proof. destruct r as [s'|s'| |s' m e]; try destruct s'; cbn; congruence. Qed.

(** Nothing exceeds a draw when the total fitness is infinite: a finite
    sum gives the fraction 0 and an infinite one gives NaN. *)
Lemma fraction_of_infinity (r sum : float) :
  unit_interval r = true ->
  F64.ltb r (F64.div sum F64.pos_infinity) = false.
Proof.
  intros Hr. unfold unit_interval in Hr. apply andb_true_iff in Hr.
  destruct Hr as [H0 _].
  destruct sum as [s|s| |s m e]; cbn [F64.div SFdiv F64.pos_infinity].
  - now apply ltb_zero_false.
  - apply ltb_nan_r.
  - apply ltb_nan_r.
  - now apply ltb_zero_false.
Qed.

Lemma select_last_of_infinite_total (l : list individual) (t t' : tape)
    (k : nat) :
  _select_random_individual l F64.pos_infinity t = Done k t' ->
  k = length l - 1.
Proof.
  intros H. destruct (select_inv _ _ _ _ _ H) as (r & first & Hu & Hi & Hr & Hf & _).
  assert (Hne : l <> []) by (intros ->; discriminate).
  destruct (select_draw l F64.pos_infinity r (uniforms t') (integers t) Hne Hr)
    as (k' & Hk' & Hlen & _ & Hat).
  assert (Ht : t = mk_tape (r :: uniforms t') (integers t))
    by (destruct t; cbn in *; now subst).
  rewrite Ht in H. rewrite Hk' in H. inversion H; subst k'.
  destruct (Nat.eq_dec k (length l - 1)) as [Heq|Hneq]; [exact Heq|].
  specialize (Hat ltac:(lia)). unfold trips in Hat.
  now rewrite (fraction_of_infinity r _ Hr) in Hat.
Qed.

Lemma select_single (ind : individual) (total : float) (t t' : tape) (k : nat) :
  _select_random_individual [ind] total t = Done k t' -> k = 0.
Proof.
  intros H. destruct (select_inv _ _ _ _ _ H) as (r & first & _ & _ & _ & _ & Hs).
  cbn in Hs. now inversion Hs.
Qed.

Lemma select_never_raises (l : list individual) (total : float) (t : tape)
    (e : exn) :
  l <> [] -> _select_random_individual l total t <> Raised e.
Proof.
  intros Hne H.
  unfold _select_random_individual, bind, random_random, lift in H.
  destruct (uniforms t) as [|r rest] eqn:Hu; [discriminate|].
  fold (unit_interval r) in H.
  destruct (unit_interval r) eqn:Hr; [|discriminate].
  destruct (select_draw l total r rest (integers t) Hne Hr) as (k & Hk & _).
  unfold _select_random_individual, bind, random_random, lift in Hk.
  cbn [uniforms integers] in Hk. fold (unit_interval r) in Hk.
  rewrite Hr in Hk.
  destruct (getitem l 0); [|discriminate].
  destruct (select_loop _ _ _ _ _ _); discriminate.
Qed.

(** When every selection gives one and the same index, the loop that
    breeds the offspring goes on until the draws run out. *)
Lemma breed_stuck {numerics : Numerics} (self : population)
    (l : list individual) (total : float) (c : nat) :
  l <> [] ->
  (forall t k t', _select_random_individual l total t = Done k t' -> k = c) ->
  forall (fuel : nat) (children : list chromosome_t) (t : tape),
    length children < CHILDREN ->
    breed fuel self l total children t = NoDraw.
Proof.
  intros Hne Hsame. induction fuel as [|fuel IH]; intros children t Hlen;
    cbn [breed]; apply Nat.ltb_lt in Hlen; rewrite Hlen; [reflexivity|].
  apply Nat.ltb_lt in Hlen.
  unfold bind at 1.
  destruct (_select_random_individual l total t) as [i1 t1|e|] eqn:H1;
    [|now apply select_never_raises in H1|reflexivity].
  unfold bind at 1.
  destruct (_select_random_individual l total t1) as [i2 t2|e|] eqn:H2;
    [|now apply select_never_raises in H2|reflexivity].
  rewrite (Hsame _ _ _ H1), (Hsame _ _ _ H2), Nat.eqb_refl. cbn [negb].
  now apply IH.
Qed.

(** X10.  A generation step on a population of a single individual never
    returns and never raises: both selections give index 0, the pair is
    drawn again, and whatever the draws the step asks for more. *)
Theorem single_individual_never_breeds {numerics : Numerics}
    (self : population) (t : tape) :
  length (individuals self) = 1 ->
  run_single_iteration self t = NoDraw.
Proof.
  intros Hone. unfold run_single_iteration.
  destruct (individuals self) as [|ind [|ind' rest]] eqn:Hi; try discriminate.
  unfold bind at 1.
  rewrite (breed_stuck self (sorted descending_fitness [ind]) _ 0).
  - reflexivity.
  - discriminate.
  - intros t0 k t' H. cbn in H. now apply select_single in H.
  - cbn. unfold CHILDREN. lia.
Qed.

Lemma single_individual_never_breeds_witness :
  @run_single_iteration Harness.plain
    (mk_population 1 Harness.x_ones Harness.y_ones Harness.a_full [Run.weak])
    Run.draws
  = NoDraw.
Proof. apply single_individual_never_breeds. reflexivity. Defined.

(** X11.  When the fitness values add up to positive infinity, as when an
    individual has error 0, every selection gives the last index, and a
    generation step on a population that is not empty never returns and
    never raises. *)
Theorem infinite_total_never_breeds {numerics : Numerics}
    (self : population) (t : tape) :
  individuals self <> [] ->
  py_sum (map fitness (individuals self)) = F64.pos_infinity ->
  (forall (t0 t' : tape) (k : nat),
      _select_random_individual
        (sorted descending_fitness (individuals self)) F64.pos_infinity t0
      = Done k t' ->
      k = length (individuals self) - 1)
  /\ run_single_iteration self t = NoDraw.
Proof.
  intros Hne Htotal.
  assert (Hlast : forall (t0 t' : tape) (k : nat),
            _select_random_individual
              (sorted descending_fitness (individuals self))
              F64.pos_infinity t0 = Done k t' ->
            k = length (individuals self) - 1).
  { intros t0 t' k H. apply select_last_of_infinite_total in H.
    now rewrite length_sorted in H. }
  split; [exact Hlast|].
  unfold run_single_iteration. rewrite Htotal. unfold bind at 1.
  rewrite (breed_stuck self _ _ (length (individuals self) - 1)).
  - reflexivity.
  - intros Hnil. apply Hne.
    apply length_zero_iff_nil. rewrite <- (length_sorted descending_fitness).
    now rewrite Hnil.
  - intros t0 k t'. apply Hlast.
  - cbn. unfold CHILDREN. lia.
Qed.

Lemma infinite_total_never_breeds_witness :
  @run_single_iteration Harness.plain
    (mk_population 2 Harness.x_ones Harness.y_ones Harness.a_full
       [Run.weak; Run.perfect])
    Run.draws
  = NoDraw.
Proof.
  apply (proj2 (@infinite_total_never_breeds Harness.plain
                  (mk_population 2 Harness.x_ones Harness.y_ones
                     Harness.a_full [Run.weak; Run.perfect])
                  Run.draws ltac:(discriminate)
                  ltac:(vm_compute; reflexivity))).
Defined.

(** X12.  A generation step on an empty population raises IndexError as
    soon as it has a draw: the selection reads the first individual. *)
Theorem empty_population_raises {numerics : Numerics} (self : population)
    (r : float) (rest : list float) (ints : list Z) :
  individuals self = [] ->
  unit_interval r = true ->
  run_single_iteration self (mk_tape (r :: rest) ints) = Raised IndexError.
Proof.
  intros Hnil Hr. unfold run_single_iteration. rewrite Hnil.
  cbn [uniforms length]. unfold bind at 1. cbn [breed length].
  change (0 <? CHILDREN) with true. cbn match.
  unfold bind at 1. unfold _select_random_individual. unfold bind at 1.
  rewrite (random_random_draw r rest ints Hr). reflexivity.
Qed.

Lemma empty_population_raises_witness :
  @run_single_iteration Harness.plain
    (mk_population 0 Harness.x_ones Harness.y_ones Harness.a_full [])
    (mk_tape [Run.half] [])
  = Raised IndexError.
Proof. apply empty_population_raises; reflexivity. Defined.

(** * What a generation step keeps *)

Lemma parents_agree_after_a_step_witness :
  @parent_chromosomes (snd (fst Run.stepped)) 0 1
  = selected_chromosomes (snd (fst Run.stepped)) 0 1.
Proof.
  exact (@parents_agree_after_a_step Harness.plain _ _ _ _ _ 0 1 run_stepped).
Defined.

Lemma ascending_adjacent {A : Type} (key : A -> float) (l : list A) :
  ascending key l ->
  forall i a b, nth_error l i = Some a -> nth_error l (S i) = Some b ->
                F64.ltb (key b) (key a) = false.
Proof.
  induction l as [|h t IH]; intros Hl i a b Ha Hb; [destruct i; discriminate|].
  destruct Hl as [Hh Ht]. destruct i as [|i].
  - cbn in Ha, Hb. inversion Ha; subst h. destruct t as [|c t']; [discriminate|].
    cbn in Hb. inversion Hb; subst c. exact Hh.
  - cbn [nth_error] in Ha, Hb. exact (IH Ht i a b Ha Hb).
Qed.

Lemma st_for_each_invariant {W A B : Type} (P : B -> Prop) (items : list A)
    (body : B -> A -> St W B) :
  (forall acc v s acc' s', P acc -> body acc v s = Done acc' s' -> P acc') ->
  forall acc s res s',
    P acc -> st_for_each items body acc s = Done res s' -> P res.
Proof.
  intros Hbody. induction items as [|v items IH]; intros acc s res s' Hacc H.
  - apply ret_done in H. destruct H as [-> _]. exact Hacc.
  - cbn [st_for_each] in H. apply bind_done in H.
    destruct H as (acc' & s1 & Hb & Hrest).
    exact (IH acc' s1 res s' (Hbody _ _ _ _ _ Hacc Hb) Hrest).
Qed.

Lemma initial_individuals_bits (n : nat) (t t' : tape)
    (chromosomes : list chromosome_t) :
  _get_initial_individuals n t = Done chromosomes t' ->
  forall c, In c chromosomes -> length c = CHROMOSOME_BITS.
Proof.
  unfold _get_initial_individuals. intros H.
  refine (st_for_each_invariant
            (fun cs => forall c, In c cs -> length c = CHROMOSOME_BITS)
            _ _ _ _ _ _ _ _ H).
  - intros acc v s acc' s' Hacc Hb. apply bind_done in Hb.
    destruct Hb as (c0 & s1 & Hc0 & Hr). apply ret_done in Hr.
    destruct Hr as [-> _]. intros c Hc. apply in_app_or in Hc.
    destruct Hc as [Hc|[<-|[]]]; [now apply Hacc|].
    now apply random_chromosome_length in Hc0.
  - intros c [].
Qed.

Lemma completed_chromosomes {numerics : Numerics} (self : population)
    (chromosomes : list chromosome_t) (inds : list individual) :
  _get_complete_individuals self chromosomes = Ok inds ->
  forall ind, In ind inds -> In (chromosome ind) chromosomes.
Proof.
  unfold _get_complete_individuals. intros H ind Hin.
  destruct (comprehension_in _ _ _ _ H Hin) as (c & Hc & Hok).
  destruct (complete_individual_inv _ _ _ _ _ Hok) as (_ & _ & _ & -> & _).
  exact Hc.
Qed.

(** X13.  The initialization gives a population of complete individuals
    with chromosomes of CHROMOSOME_BITS bits, and a generation step keeps
    both: whatever it stores is an individual it had or an offspring it has
    just evaluated, on the same data. *)
Theorem population_stays_well_formed {numerics : Numerics} :
  (forall (n : nat) (x0 y0 a0 : ndarray) (t t' : tape) (self : population),
      Population_init n x0 y0 a0 t = Done self t' ->
      full_length self /\ all_complete self)
  /\ (forall (self self' : population) (t t' : tape) (fittest : individual),
        full_length self -> all_complete self ->
        run_single_iteration self t = Done (fittest, self') t' ->
        full_length self' /\ all_complete self'
        /\ x self' = x self /\ y self' = y self
        /\ adjacency_matrix self' = adjacency_matrix self
        /\ nth_error (individuals self') 0 = Some fittest).
Proof.
  split.
  - intros n x0 y0 a0 t t' self H.
    destruct (population_init_inv _ _ _ _ _ _ _ H)
      as (_ & _ & _ & _ & _ & Hcomplete).
    split; [|exact Hcomplete].
    unfold Population_init in H.
    apply bind_done in H. destruct H as (chromosomes & t1 & Hc & H).
    apply bind_done in H. destruct H as (inds & t2 & Hl & H).
    apply lift_done in Hl. destruct Hl as [Hl _].
    apply ret_done in H. destruct H as [-> _].
    intros ind Hin. cbn [individuals set_individuals] in Hin.
    apply (initial_individuals_bits _ _ _ _ Hc).
    exact (completed_chromosomes _ _ _ Hl ind Hin).
  - intros self self' t t' fittest Hbits Hcomplete H.
    destruct (run_single_iteration_inv _ _ _ _ _ H)
      as (chromosomes & children & _ & Hcb & Hcomp & -> & Hbest).
    cbn [individuals set_individuals x y adjacency_matrix].
    split; [|split].
    + intros ind Hin. cbn [individuals set_individuals] in Hin.
      apply survivors_in in Hin. destruct Hin as [Hold|Hnew].
      * now apply Hbits.
      * apply Hcb. exact (completed_chromosomes _ _ _ Hcomp ind Hnew).
    + intros ind Hin.
      cbn [individuals set_individuals x y adjacency_matrix] in *.
      apply survivors_in in Hin. destruct Hin as [Hold|Hnew].
      * now apply Hcomplete.
      * destruct (complete_individuals_spec _ _ _ Hcomp) as [_ Hc].
        now apply Hc.
    + auto.
Qed.

Lemma population_stays_well_formed_witness :
  full_length (snd (fst Run.stepped))
  /\ @all_complete Harness.plain (snd (fst Run.stepped)).
Proof.
  destruct (@population_stays_well_formed Harness.plain) as [Hinit Hstep].
  destruct (Hinit _ _ _ _ _ _ _ run_started) as [Hb Hc].
  destruct (Hstep _ _ _ _ _ Hb Hc run_stepped) as (Hb' & Hc' & _).
  split; assumption.
Defined.

(** X14.  After a generation step the population is stored by
    non-increasing fitness, whenever the fitness values of the population
    and of the chromosomes evaluated on its data can be ranked. *)
Theorem population_stored_by_fitness {numerics : Numerics}
    (self self' : population) (t t' : tape) (fittest : individual) :
  ranked self ->
  ranked_landscape self ->
  run_single_iteration self t = Done (fittest, self') t' ->
  forall i a b,
    nth_error (individuals self') i = Some a ->
    nth_error (individuals self') (S i) = Some b ->
    F64.leb (fitness b) (fitness a) = true.
Proof.
  intros Hrank Hland H i a b Ha Hb.
  destruct (run_single_iteration_inv _ _ _ _ _ H)
    as (chromosomes & children & _ & _ & Hcomp & -> & _).
  cbn [individuals set_individuals] in Ha, Hb.
  assert (Hasc : ascending descending_fitness (survivors self children))
    by (unfold survivors; apply ascending_firstn, ascending_sorted).
  pose proof (ascending_adjacent _ _ Hasc i a b Ha Hb) as Hlt.
  assert (Hcmp : forall ind, In ind (survivors self children) ->
                             comparable (fitness ind) = true).
  { intros ind Hin. apply survivors_in in Hin. destruct Hin as [Hold|Hnew].
    - now apply Hrank.
    - destruct (complete_individuals_spec _ _ _ Hcomp) as [_ Hc].
      apply (Hland (chromosome ind)). now apply Hc. }
  pose proof (Hcmp a (nth_error_In _ _ Ha)) as Ca.
  pose proof (Hcmp b (nth_error_In _ _ Hb)) as Cb.
  rewrite descending_key_ltb in Hlt by assumption.
  destruct (comparable_inv _ Ca) as [_ Na].
  destruct (comparable_inv _ Cb) as [_ Nb].
  now apply ltb_false_leb.
Qed.

Lemma population_stored_by_fitness_witness :
  F64.leb
    (fitness (nth 1 (individuals (snd (fst Run.stepped))) Run.weak))
    (fitness (nth 0 (individuals (snd (fst Run.stepped))) Run.weak))
  = true.
Proof.
  apply (@population_stored_by_fitness Harness.plain _ _ _ _ _
           harness_ranked harness_landscape run_stepped 0);
    vm_compute; reflexivity.
Defined.

(** * The driver on a perfect fit, and where its loop leaves *)

(** X15.  A fittest individual whose mean squared error is zero (or below)
    ends the run with ValueError: the pass takes its logarithm. *)
Theorem driver_raises_on_zero_error {numerics : Numerics} (W : Type)
    (generation : St W individual) (fuel : nat) (d : driver) (w w' : W)
    (fittest : individual) :
  (counter d - best_index d < TERMINATION_CONDITION)%Z ->
  generation w = Done fittest w' ->
  F64.leb (mse fittest) (F64.of_Z 0) = true ->
  driver_pass generation d w = Raised ValueError
  /\ driver_loop generation (S fuel) d w = Raised ValueError.
Proof.
  intros Hlt Hg Hz.
  assert (Hp : driver_pass generation d w = Raised ValueError).
  { unfold driver_pass, bind, lift, math_log10. now rewrite Hg, Hz. }
  split; [exact Hp|]. cbn [driver_loop].
  apply Z.ltb_lt in Hlt. rewrite Hlt. unfold bind. now rewrite Hp.
Qed.

Lemma driver_raises_on_zero_error_witness :
  @driver_loop Harness.plain unit (fun w => Done Run.perfect w) 1
    driver_start tt
  = Raised ValueError.
Proof.
  apply (proj2 (@driver_raises_on_zero_error Harness.plain unit
                  (fun w => Done Run.perfect w) 0 driver_start tt tt
                  Run.perfect ltac:(vm_compute; reflexivity) eq_refl
                  ltac:(vm_compute; reflexivity))).
Defined.

Section DriverState.

Context {numerics : Numerics}.
Variable W : Type.
Variable generation : St W individual.

(** What every pass keeps: one logged error per generation, and an index
    of the last improvement between 0 and the generation count, at most
    TERMINATION_CONDITION behind it. *)
Definition driver_invariant (d : driver) : Prop :=
  Z.of_nat (length (errors d)) = counter d
  /\ (0 <= best_index d <= counter d)%Z
  /\ (counter d - best_index d <= TERMINATION_CONDITION)%Z
  /\ (fittest_individual d = None -> counter d = 0%Z).

Lemma driver_pass_keeps (d d' : driver) (w w' : W) :
  driver_invariant d ->
  (counter d - best_index d < TERMINATION_CONDITION)%Z ->
  driver_pass generation d w = Done d' w' ->
  driver_invariant d'
  /\ exists fittest,
       fittest_individual d' = Some fittest
       /\ F64.leb (mse fittest) (F64.of_Z 0) = false.
Proof.
  intros (Hlen & Hidx & Hgap & Hnone) Hlt H. unfold driver_pass in H.
  apply bind_done in H. destruct H as (fittest & w1 & _ & H).
  apply bind_done in H. destruct H as (error & w2 & Hlog & H).
  apply lift_done in Hlog. destruct Hlog as [Hlog _].
  assert (Hpos : F64.leb (mse fittest) (F64.of_Z 0) = false).
  { unfold math_log10 in Hlog.
    destruct (F64.leb (mse fittest) (F64.of_Z 0)); [discriminate|reflexivity]. }
  unfold TERMINATION_CONDITION in *.
  destruct (F64.ltb (best_fitness d) (fitness fittest));
    apply ret_done in H; destruct H as [-> _];
    (split; [|exists fittest; split; [reflexivity|exact Hpos]]);
    unfold driver_invariant, TERMINATION_CONDITION;
    cbn [errors counter best_index fittest_individual];
    rewrite length_app, Nat2Z.inj_add; cbn [length];
    (split; [lia|]); (split; [lia|]); (split; [lia|]); intros Hs;
    discriminate Hs.
Qed.

Lemma driver_loop_keeps (fuel : nat) :
  forall (d d' : driver) (w w' : W),
    driver_invariant d ->
    driver_loop generation fuel d w = Done d' w' ->
    driver_invariant d'
    /\ (counter d' - best_index d' = TERMINATION_CONDITION)%Z
    /\ (counter d <= counter d')%Z.
Proof.
  induction fuel as [|fuel IH]; intros d d' w w' Hinv H; cbn [driver_loop] in H;
    destruct (counter d - best_index d <? TERMINATION_CONDITION)%Z eqn:Hc;
    try discriminate.
  - apply ret_done in H. destruct H as [-> _]. apply Z.ltb_ge in Hc.
    pose proof Hinv as (Hlen & Hidx & Hgap & Hnone).
    split; [exact Hinv|]. split; lia.
  - apply Z.ltb_lt in Hc. apply bind_done in H.
    destruct H as (d1 & w1 & Hpass & Hrest).
    destruct (driver_pass_keeps d d1 w w1 Hinv Hc Hpass) as [Hinv1 _].
    destruct (IH d1 d' w1 w' Hinv1 Hrest) as (Hinv' & Hexit & Hmono).
    split; [exact Hinv'|]. split; [exact Hexit|].
    destruct (driver_pass_inv W generation d d1 w w1 Hpass) as [Hcount _].
    lia.
  - apply ret_done in H. destruct H as [-> _]. apply Z.ltb_ge in Hc.
    pose proof Hinv as (Hlen & Hidx & Hgap & Hnone).
    split; [exact Hinv|]. split; lia.
Qed.

End DriverState.

(** X16.  When the loop of the driver leaves, at least
    TERMINATION_CONDITION generations have run, one error has been logged
    per generation, and the last improvement lies exactly
    TERMINATION_CONDITION generations back, at an index that is not
    negative. *)
Theorem driver_exit_state {numerics : Numerics} (W : Type)
    (generation : St W individual) (fuel : nat) (d : driver) (w w' : W) :
  driver_loop generation fuel driver_start w = Done d w' ->
  (TERMINATION_CONDITION <= counter d)%Z
  /\ Z.of_nat (length (errors d)) = counter d
  /\ (0 <= best_index d)%Z
  /\ (counter d - best_index d = TERMINATION_CONDITION)%Z
  /\ fittest_individual d <> None.
Proof.
  intros H.
  assert (Hstart : driver_invariant driver_start).
  { unfold driver_invariant, driver_start, TERMINATION_CONDITION. cbn.
    repeat split; lia. }
  destruct (driver_loop_keeps W generation fuel _ _ _ _ Hstart H)
    as ((Hlen & Hidx & Hgap & Hnone) & Hexit & _).
  unfold TERMINATION_CONDITION in *.
  repeat split; try lia. intros Hn. specialize (Hnone Hn). lia.
Qed.

Lemma driver_exit_state_witness :
  exists d,
    @driver_loop Harness.plain unit (fun w => Done Run.weak w) 1001
      driver_start tt = Done d tt
    /\ Z.of_nat (length (errors d)) = counter d.
Proof.
  eexists. split.
  - vm_compute. reflexivity.
  - eapply (@driver_exit_state Harness.plain unit (fun w => Done Run.weak w)
              1001 _ tt tt).
    vm_compute. reflexivity.
Defined.

(** * Completion, initial chromosomes and offspring *)

Lemma comprehension_map {A B : Type} (f : A -> result B) (g : B -> A)
    (l : list A) :
  (forall a b, f a = Ok b -> g b = a) ->
  forall l', comprehension f l = Ok l' -> map g l' = l.
Proof.
  intros Hg. induction l as [|a l IH]; intros l' H; cbn in H.
  - now inversion H.
  - destruct (f a) as [b|e] eqn:Hfa; [|discriminate]. cbn [rbind] in H.
    destruct (comprehension f l) as [bs|e]; [|discriminate].
    cbn [rbind] in H. inversion H; subst. cbn [map].
    now rewrite (Hg a b Hfa), (IH bs eq_refl).
Qed.

Lemma comprehension_raises {A B : Type} (f : A -> result B) (l1 l2 : list A)
    (a : A) (e : exn) (done : list B) :
  comprehension f l1 = Ok done ->
  f a = Raise e ->
  comprehension f (l1 ++ a :: l2) = Raise e.
Proof.
  revert done. induction l1 as [|h l1 IH]; intros done H Ha; cbn in *.
  - now rewrite Ha.
  - destruct (f h) as [b|e']; [|discriminate]. cbn [rbind] in *.
    destruct (comprehension f l1) as [bs|e']; [|discriminate].
    now rewrite (IH bs eq_refl Ha).
Qed.

(** X17.  Completing a list of chromosomes keeps their order: the
    individuals come back one per chromosome, each carrying its own
    chromosome; and a chromosome of fewer than CHROMOSOME_BITS bits makes
    the whole completion raise IndexError once those before it have been
    completed. *)
Theorem completion_keeps_order {numerics : Numerics} (self : population) :
  (forall (chromosomes : list chromosome_t) (inds : list individual),
      _get_complete_individuals self chromosomes = Ok inds ->
      map chromosome inds = chromosomes)
  /\ (forall (before after : list chromosome_t) (short : chromosome_t)
             (done : list individual),
        _get_complete_individuals self before = Ok done ->
        length short < CHROMOSOME_BITS ->
        _get_complete_individuals self (before ++ short :: after)
        = Raise IndexError).
Proof.
  split.
  - intros chromosomes inds H. unfold _get_complete_individuals in H.
    apply (comprehension_map _ chromosome _) in H; [exact H|].
    intros c ind Hc.
    now destruct (complete_individual_inv _ _ _ _ _ Hc) as (_ & _ & _ & Hch & _).
  - intros before after short done Hdone Hshort.
    unfold _get_complete_individuals in *.
    apply (comprehension_raises _ _ _ _ _ done Hdone).
    unfold _get_complete_individual.
    now rewrite (decode_short short Hshort).
Qed.

Lemma completion_keeps_order_witness :
  @_get_complete_individuals Harness.plain Run.fresh
    ([] ++ [true] :: [repeat true CHROMOSOME_BITS])
  = Raise IndexError.
Proof.
  apply (proj2 (@completion_keeps_order Harness.plain Run.fresh)
           [] [repeat true CHROMOSOME_BITS] [true] [] eq_refl).
  vm_compute. lia.
Defined.

Lemma random_randint_draw (a b z : Z) (us : list float) (ints : list Z) :
  (a <= z <= b)%Z ->
  random_randint a b (mk_tape us (z :: ints)) = Done z (mk_tape us ints).
Proof.
  intros Hz. unfold random_randint. cbn [uniforms integers].
  assert (H : ((a <=? z) && (z <=? b))%Z = true)
    by (apply andb_true_iff; split; apply Z.leb_le; lia).
  now rewrite H.
Qed.

Lemma random_bits_loop (us : list float) (rest : list Z) :
  forall (zs : list Z) (items : list nat) (acc : chromosome_t),
    length items = length zs ->
    Forall (fun z => (0 <= z <= 1)%Z) zs ->
    st_for_each items
      (fun bits _ => z <- random_randint 0 1 ;; ret (bits ++ [(z =? 1)%Z]))%st
      acc (mk_tape us (zs ++ rest))
    = Done (acc ++ map (fun z => (z =? 1)%Z) zs) (mk_tape us rest).
Proof.
  induction zs as [|z zs IH]; intros [|i items] acc Hlen Hz;
    try discriminate.
  - cbn. now rewrite app_nil_r.
  - inversion Hz as [|z' zs' Hz0 Hzs]; subst.
    cbn [st_for_each app]. unfold bind at 1. unfold bind at 1.
    rewrite (random_randint_draw 0 1 z us (zs ++ rest) Hz0). unfold ret at 1.
    rewrite (IH items _ ltac:(cbn in Hlen; lia) Hzs).
    cbn [map]. now rewrite <- app_assoc.
Qed.

(** X18.  A random chromosome is the next CHROMOSOME_BITS outcomes of
    [randint(0, 1)], in order, and takes no other draw. *)
Theorem random_chromosome_reads_bits (us : list float) (zs rest : list Z) :
  length zs = CHROMOSOME_BITS ->
  Forall (fun z => (0 <= z <= 1)%Z) zs ->
  random_chromosome (mk_tape us (zs ++ rest))
  = Done (map (fun z => (z =? 1)%Z) zs) (mk_tape us rest).
Proof.
  intros Hlen Hz. unfold random_chromosome.
  apply (random_bits_loop us rest zs (range CHROMOSOME_BITS) []); [|exact Hz].
  unfold range. now rewrite length_seq.
Qed.

Lemma random_chromosome_reads_bits_witness :
  random_chromosome (mk_tape [] (repeat 1%Z CHROMOSOME_BITS ++ [5%Z]))
  = Done (map (fun z => (z =? 1)%Z) (repeat 1%Z CHROMOSOME_BITS))
         (mk_tape [] [5%Z]).
Proof.
  apply random_chromosome_reads_bits.
  - reflexivity.
  - apply Forall_forall. intros z Hz. apply repeat_spec in Hz. lia.
Defined.

(** X19.  An offspring is the mutation of the crossover: for parents of
    CHROMOSOME_BITS bits, a crossover point [p] and mutation draws [us],
    bit [i] of the offspring is the bit of parent 1 (before [p]) or of
    parent 2 (from [p] on), flipped exactly when draw [i] is below
    MUTATION_CHANCE. *)
Theorem offspring_bits (c1 c2 : chromosome_t) (p : nat)
    (us rest : list float) (ints : list Z) :
  length c1 = CHROMOSOME_BITS ->
  length c2 = CHROMOSOME_BITS ->
  p < CHROMOSOME_BITS ->
  length us = CHROMOSOME_BITS ->
  unit_draws us ->
  exists offspring,
    (crossed <- _crossover c1 c2 ;; _mutation crossed)%st
      (mk_tape (us ++ rest) (Z.of_nat p :: ints))
    = Done offspring (mk_tape rest ints)
    /\ length offspring = CHROMOSOME_BITS
    /\ forall i r b1 b2,
         nth_error us i = Some r ->
         nth_error c1 i = Some b1 -> nth_error c2 i = Some b2 ->
         nth_error offspring i
         = Some (mutated_bit r (if i <? p then b1 else b2)).
Proof.
  intros H1 H2 Hp Hus Hunit.
  destruct (crossover_bits c1 c2 p ltac:(lia) ltac:(lia))
    as (Hlen & Hbefore & Hafter).
  set (crossed := firstn p c1 ++ skipn p c2) in *.
  exists (map (fun q => mutated_bit (fst q) (snd q)) (combine us crossed)).
  split; [|split].
  - unfold bind. rewrite (crossover_draw c1 c2 p (us ++ rest) ints Hp).
    apply mutation_result; auto. fold crossed. lia.
  - rewrite length_map, length_combine. lia.
  - intros i r b1 b2 Hr Hb1 Hb2. rewrite nth_error_map.
    assert (Hc : nth_error crossed i = Some (if i <? p then b1 else b2)).
    { destruct (i <? p) eqn:Hip.
      - apply Nat.ltb_lt in Hip. now rewrite Hbefore.
      - apply Nat.ltb_ge in Hip. now rewrite Hafter. }
    now rewrite (combine_nth_error us crossed i r _ Hr Hc).
Qed.

Lemma offspring_bits_witness :
  exists offspring,
    (crossed <- _crossover (repeat false CHROMOSOME_BITS)
                  (repeat true CHROMOSOME_BITS) ;;
     _mutation crossed)%st
      (mk_tape (repeat Run.half CHROMOSOME_BITS ++ []) (Z.of_nat 18 :: []))
    = Done offspring (mk_tape [] [])
    /\ length offspring = CHROMOSOME_BITS.
Proof.
  destruct (offspring_bits (repeat false CHROMOSOME_BITS)
              (repeat true CHROMOSOME_BITS) 18
              (repeat Run.half CHROMOSOME_BITS) [] []
              ltac:(reflexivity) ltac:(reflexivity)
              ltac:(vm_compute; lia) ltac:(reflexivity)
              ltac:(unfold unit_draws; apply Forall_forall; intros r Hr;
                    apply repeat_spec in Hr; subst r; reflexivity))
    as (offspring & Ho & Hl & _).
  exists offspring. split; assumption.
Defined.

(** * A trajectory with too few samples *)

Lemma elementwise_lengths (op : float -> float -> float) (u : vector) :
  forall v, length u = length v ->
            exists w, elementwise op u v = Ok w /\ length w = length u.
Proof.
  induction u as [|a u IH]; intros [|b v] Hlen; try discriminate.
  - exists []. split; reflexivity.
  - injection Hlen as Hlen. destruct (IH v Hlen) as (w & Hw & Hl).
    exists (op a b :: w). cbn. rewrite Hw. cbn. split; [reflexivity|].
    now rewrite Hl.
Qed.

Section ShortTrajectory.

Context {numerics : Numerics}.
Variables (x a : ndarray) (p0 p1 p2 : float).

Hypothesis x_cols : NUMBER_OF_NODES <= ncols x.
Hypothesis a_rows : NUMBER_OF_NODES <= nrows a.
Hypothesis a_cols : NUMBER_OF_NODES <= ncols a.

Let samples : nat := Nat.min TIME_FRAMES (nrows x).

Lemma column_prefix_clipped (c : nat) :
  c < ncols x ->
  exists v, column_prefix x TIME_FRAMES c = Ok v /\ length v = samples.
Proof.
  intros Hc. unfold column_prefix. apply Nat.ltb_lt in Hc. rewrite Hc.
  eexists. split; [reflexivity|].
  unfold range. now rewrite length_map, length_seq.
Qed.

Lemma coupling_loop_lengths (i : nat) (x_i : vector) (js : list nat) :
  i < NUMBER_OF_NODES ->
  length x_i = samples ->
  (forall j, In j js -> j < NUMBER_OF_NODES) ->
  forall terms : list vector,
    (forall v, In v terms -> length v = samples) ->
    exists terms',
      for_each js
        (fun terms j =>
           if negb (j =? i) then
             a0 <- getitem2 a j i ;;
             if F64.truthy a0 then
               x_j <- column_prefix x TIME_FRAMES j ;;
               a1 <- getitem2 a j i ;;
               q1 <- getitem [p0; p1; p2] 1 ;;
               q2 <- getitem [p0; p1; p2] 2 ;;
               term <- elementwise F64.mul (scale a1 (vpow x_i q1))
                         (vpow x_j q2) ;;
               Ok (terms ++ [term])
             else Ok terms
           else Ok terms)
        terms
      = Ok terms'
      /\ forall v, In v terms' -> length v = samples.
Proof.
  intros Hi Hxi. induction js as [|j js IH]; intros Hjs terms Hterms.
  - exists terms. split; [reflexivity | exact Hterms].
  - assert (Hj : j < NUMBER_OF_NODES) by (apply Hjs; now left).
    assert (Hrest : forall j', In j' js -> j' < NUMBER_OF_NODES)
      by (intros j' H'; apply Hjs; now right).
    cbn [for_each].
    destruct (negb (j =? i)); cbn [rbind]; [|now apply IH].
    rewrite getitem2_ok by lia. cbn [rbind].
    destruct (F64.truthy (item a j i)); cbn [rbind]; [|now apply IH].
    destruct (column_prefix_clipped j ltac:(lia)) as (x_j & Hxj & Hlj).
    rewrite Hxj. cbn [rbind]. unfold getitem. cbn [nth_error rbind].
    destruct (elementwise_lengths F64.mul (scale (item a j i) (vpow x_i p1))
                (vpow x_j p2))
      as (term & Hterm & Hlt).
    { unfold scale, vpow. rewrite !length_map. congruence. }
    rewrite Hterm. cbn [rbind]. apply IH; [exact Hrest|].
    intros v Hv. apply in_app_or in Hv. destruct Hv as [Hv|[<-|[]]].
    + now apply Hterms.
    + rewrite Hlt. unfold scale, vpow. now rewrite !length_map.
Qed.

Lemma sum_axis0_lengths (ts : list vector) :
  forall acc : vector,
    (forall v, In v ts -> length v = length acc) ->
    exists col,
      for_each ts (fun acc v => elementwise F64.add acc v) acc = Ok col
      /\ length col = length acc.
Proof.
  induction ts as [|t ts IH]; intros acc Hts.
  - exists acc. split; reflexivity.
  - cbn [for_each].
    destruct (elementwise_lengths F64.add acc t) as (w & Hw & Hl).
    { symmetry. apply Hts. now left. }
    rewrite Hw. cbn [rbind].
    destruct (IH w) as (col & Hcol & Hlc).
    { intros v Hv. rewrite Hl. apply Hts. now right. }
    exists col. split; [exact Hcol | congruence].
Qed.

Lemma theta_block_short (i : nat) :
  i < NUMBER_OF_NODES ->
  nrows x < TIME_FRAMES ->
  theta_block x a [p0; p1; p2] i = Raise ValueError.
Proof.
  intros Hi Hshort. unfold theta_block.
  destruct (column_prefix_clipped i ltac:(lia)) as (x_i & Hxi & Hli).
  rewrite Hxi. cbn [rbind]. unfold getitem at 1. cbn [nth_error rbind].
  unfold coupling_terms.
  destruct (coupling_loop_lengths i x_i (range NUMBER_OF_NODES) Hi Hli
              ltac:(intros j Hj; apply in_seq in Hj; lia) [] ltac:(intros v []))
    as (terms & Hterms & Hlens).
  rewrite Hterms. cbn [rbind].
  assert (Hstack : forall cols,
            np_column_stack (np_ones TIME_FRAMES :: vpow x_i p0 :: cols)
            = Raise ValueError).
  { intros cols. unfold np_column_stack. cbn [forallb].
    assert (Hne : (length (vpow x_i p0) =? length (np_ones TIME_FRAMES))
                  = false).
    { apply Nat.eqb_neq. unfold vpow, np_ones.
      rewrite length_map, repeat_length, Hli. unfold samples. lia. }
    rewrite Hne. now rewrite andb_false_r. }
  destruct terms as [|t ts].
  - cbn [rbind]. apply Hstack.
  - cbn [np_sum_axis0].
    destruct (sum_axis0_lengths ts t) as (col & Hcol & _).
    { intros v Hv. rewrite (Hlens t) by now left.
      apply Hlens. now right. }
    rewrite Hcol. cbn [rbind app]. apply Hstack.
Qed.

End ShortTrajectory.

(** X21.  A trajectory matrix with fewer than TIME_FRAMES rows is not
    fitted on the rows it has: the column of ones has TIME_FRAMES entries,
    the shorter columns do not stack with it, and the design matrix raises
    ValueError. *)
Theorem theta_needs_all_samples {numerics : Numerics} (x a : ndarray)
    (p0 p1 p2 : float) :
  nrows x < TIME_FRAMES ->
  NUMBER_OF_NODES <= ncols x ->
  NUMBER_OF_NODES <= nrows a ->
  NUMBER_OF_NODES <= ncols a ->
  (forall i, i < NUMBER_OF_NODES ->
             theta_block x a [p0; p1; p2] i = Raise ValueError)
  /\ _get_theta x a [p0; p1; p2] = Raise ValueError.
Proof.
  intros Hshort Hxc Har Hac.
  assert (Hblock : forall i, i < NUMBER_OF_NODES ->
            theta_block x a [p0; p1; p2] i = Raise ValueError).
  { intros i Hi. now apply theta_block_short. }
  split; [exact Hblock|].
  unfold _get_theta, range. cbn [NUMBER_OF_NODES seq for_each].
  rewrite (Hblock 0) by (unfold NUMBER_OF_NODES; lia). reflexivity.
Qed.

Lemma theta_needs_all_samples_witness :
  @_get_theta Harness.plain
    (Harness.constant 5 NUMBER_OF_NODES (F64.of_Z 1)) Harness.a_full
    [F64.of_Z 1; F64.of_Z 1; F64.of_Z 1]
  = Raise ValueError.
Proof.
  apply (proj2 (@theta_needs_all_samples Harness.plain
                  (Harness.constant 5 NUMBER_OF_NODES (F64.of_Z 1))
                  Harness.a_full (F64.of_Z 1) (F64.of_Z 1) (F64.of_Z 1)
                  ltac:(cbn; unfold TIME_FRAMES; lia)
                  ltac:(cbn; lia) ltac:(cbn; lia) ltac:(cbn; lia))).
Defined.

(** * Termination of the driver *)






Section DriverProgress.

Context {numerics : Numerics}.
Variable W : Type.
Variable generation : St W individual.
Variable reachable : W -> Prop.
Variable fitness_of : chromosome_t -> float.

(** A generation step that returns an individual leaves a reachable state;
    the individual has a chromosome of CHROMOSOME_BITS bits, and its
    fitness is a function of the chromosome. *)
Hypothesis generation_keeps :
  forall w fittest w',
    reachable w -> generation w = Done fittest w' ->
    reachable w'
    /\ length (chromosome fittest) = CHROMOSOME_BITS
    /\ fitness fittest = fitness_of (chromosome fittest).



End DriverProgress.




(** ** A target of zeros: every fit is exact

    On a trajectory of ones and a target of zeros, with every node
    coupled to every other, the numerics of the harness give what numpy
    gives: a power of 1 is 1, the least-squares solution for a zero target
    is the zero vector, its product with the design matrix is zero, and
    the mean of the squared residuals is [+0.0]. *)














